(** * graphdoc: the HTML schema printer (src/lib/section/print.html.ts)

    A shallow embedding of the printer plugin: the text wrapper [breakText],
    the markup emitters, the type-reference printer [useIdentifier], the
    filter predicates and the methods of [HTMLDocumentSchemaPlugin], followed
    by the properties of the written specification that they decide.

    Strings are [string] (one [ascii] per code unit, so the model covers the
    code units below 256) and [length] is the string's [.length]. *)

From Stdlib Require Import String Ascii List ZArith Lia Bool.
From Stdlib Require Import Sorting.Sorted Sorting.Permutation Structures.OrderedTypeEx.
Import ListNotations.

Local Open Scope list_scope.
Local Open Scope string_scope.

(** ** The JavaScript built-ins the printer calls *)

Module JS.

(** The code units below 256 that the regular expression class [\s] accepts:
    tab, line feed, vertical tab, form feed, carriage return, space and the
    no-break space. *)
Definition isWhiteSpace (c : ascii) : bool :=
  let n := nat_of_ascii c in
  ((9 <=? n)%nat && (n <=? 13)%nat) || (n =? 32)%nat || (n =? 160)%nat.

Definition startsWithSpace (s : string) : bool :=
  match s with
  | EmptyString => false
  | String c _ => isWhiteSpace c
  end.

(** [endsWithSpace s]: the last code unit of [s] is white space. *)
Fixpoint endsWithSpace (s : string) : bool :=
  match s with
  | EmptyString => false
  | String c EmptyString => isWhiteSpace c
  | String _ rest => endsWithSpace rest
  end.

(** [text.split(/\s+/)]: the pieces of [text] between its maximal runs of
    white space.  The result is never empty; its first piece is empty when
    [text] starts with white space, its last one when [text] ends with white
    space, and the empty text gives one empty piece. *)
Fixpoint split_ws (text : string) : list string :=
  match text with
  | EmptyString => [EmptyString]
  | String c rest =>
      if isWhiteSpace c then
        if startsWithSpace rest then split_ws rest
        else EmptyString :: split_ws rest
      else
        match split_ws rest with
        | piece :: pieces => String c piece :: pieces
        | [] => [String c EmptyString]
        end
  end.

(** [array.join(sep)] on an array of strings. *)
Definition join (sep : string) (items : list string) : string :=
  String.concat sep items.

(** [array.join(sep)] on an array that may hold [null] or [undefined]: such
    an element is printed as the empty string. *)
Definition join_nullable (sep : string) (items : list (option string)) : string :=
  join sep (map (fun item => match item with Some s => s | None => EmptyString end) items).

(** A string is truthy when it is not empty. *)
Definition truthy (s : string) : bool := negb (s =? EmptyString).

(** [a || b] on an optional string [a]: [undefined], [null] and the empty
    string are falsy. *)
Definition or_else (a : option string) (b : string) : string :=
  match a with
  | Some s => if truthy s then s else b
  | None => b
  end.

End JS.

(** ** The text wrapper *)

(** The [while] loop of [breakText], one iteration per word: [lines] and
    [line] are the loop's variables. *)
Fixpoint breakText_loop (len : Z) (words lines : list string) (line : string)
  : list string :=
  match words with
  | [] => if (0 <? String.length line)%nat then (lines ++ [line])%list else lines
  | word :: words =>
      let line :=
        line ++ (if (0 <? String.length line)%nat then " " else EmptyString) ++ word in
      if (len <? Z.of_nat (String.length line))%Z
      then breakText_loop len words (lines ++ [line])%list EmptyString
      else breakText_loop len words lines line
  end.

Definition breakText (text : string) (len : Z) : list string :=
  breakText_loop len (JS.split_ws text) [] EmptyString.

(** ** Calls that may throw *)

(** A call either returns a value or throws; the printer catches nothing, so
    an exception of a callee ends the whole call. *)
Inductive Outcome (A : Type) : Type :=
| Returns (a : A)
| Throws.

Arguments Returns {A} a.
Arguments Throws {A}.

Definition bind {A B : Type} (m : Outcome A) (k : A -> Outcome B) : Outcome B :=
  match m with
  | Returns a => k a
  | Throws => Throws
  end.

Notation "x <- m ;; k" := (bind m (fun x => k))
  (at level 61, m at next level, right associativity).

(** [array.map(f)] for a callback that may throw. *)
Fixpoint mapM {A B : Type} (f : A -> Outcome B) (items : list A) : Outcome (list B) :=
  match items with
  | [] => Returns []
  | item :: items =>
      b <- f item ;;
      bs <- mapM f items ;;
      Returns (b :: bs)
  end.

(** ** The schema objects the printer reads *)

(** What the printer reads of the named type at the bottom of a type
    reference: its [name] and its [description], which may be absent. *)
Record NamedRef : Type := {
  ref_name : string;
  ref_description : option string
}.

(** A type as fields, arguments and wrappers refer to it: a named type, or a
    [GraphQLList] or [GraphQLNonNull] around another reference ([ofType]). *)
Inductive TypeReference : Type :=
| Named (t : NamedRef)
| GraphQLList (ofType : TypeReference)
| GraphQLNonNull (ofType : TypeReference).

(** The imports from the graphql package and the engine's collation, which
    are not part of the printer: the values a schema may hold, the syntax
    tree of a value, [astFromValue] and [print] (either may throw),
    [GraphQLString], [DEFAULT_DEPRECATION_REASON] and
    [String.prototype.localeCompare]. *)
Class GraphQLJS : Type := {
  JSValue : Type;
  JSString : string -> JSValue;
  ValueNode : Type;
  astFromValue : JSValue -> TypeReference -> Outcome ValueNode;
  print : ValueNode -> Outcome string;
  GraphQLString : TypeReference;
  DEFAULT_DEPRECATION_REASON : string;
  localeCompare : string -> string -> Z
}.

(** Double quote and line feed, which a string literal cannot hold. *)
Definition dq : string := String (ascii_of_nat 34) EmptyString.
Definition nl : string := String (ascii_of_nat 10) EmptyString.

(** ** The markup emitters *)

Definition keyword (key : string) : string :=
  "<span class=" ++ dq ++ "keyword operator ts" ++ dq ++ ">" ++ key ++ "</span>".

Definition identifier (key : string) : string :=
  "<span class=" ++ dq ++ "identifier" ++ dq ++ ">" ++ key ++ "</span>".

Definition parameter (key : string) : string :=
  "<span class=" ++ dq ++ "variable parameter" ++ dq ++ ">" ++ key ++ "</span>".

Definition comment (key : string) : string :=
  "<span class=" ++ dq ++ "comment line" ++ dq ++ "># " ++ key ++ "</span>".

Definition property (key : string) : string :=
  "<span class=" ++ dq ++ "meta" ++ dq ++ ">" ++ key ++ "</span>".

Definition val (key : string) : string :=
  "<span class=" ++ dq ++ "string" ++ dq ++ ">" ++ key ++ "</span>".

(** The [while] loop of [useIdentifier]: it returns the loop's [t] and
    [usedAs] at exit. *)
Fixpoint useIdentifier_loop (t : TypeReference) (usedAs : string) : NamedRef * string :=
  match t with
  | GraphQLList ofType => useIdentifier_loop ofType "[]"
  | GraphQLNonNull ofType => useIdentifier_loop ofType "!"
  | Named t => (t, usedAs)
  end.

Definition useIdentifier (type : TypeReference) (url : string) : string :=
  let '(t, usedAs) := useIdentifier_loop type EmptyString in
  let usedAs :=
    if JS.truthy usedAs
    then "<span class=" ++ dq ++ "variable language" ++ dq ++ ">" ++ usedAs ++ "</span>"
    else usedAs in
  "<a class=" ++ dq ++ "support type" ++ dq ++ " href=" ++ dq ++ url ++ dq
    ++ " title=" ++ dq ++ JS.or_else (ref_description t) (ref_name t) ++ dq ++ ">"
    ++ ref_name t ++ "</a>" ++ usedAs.

(** ** The filter predicates *)

Definition isSpecDirective (directiveName : string) : bool :=
  (directiveName =? "skip") || (directiveName =? "include")
  || (directiveName =? "deprecated").

(** [typename.indexOf('__') === 0] *)
Definition isIntrospectionType (typename : string) : bool :=
  match String.index 0 "__" typename with
  | Some O => true
  | _ => false
  end.

Definition isBuiltInScalar (typename : string) : bool :=
  (typename =? "String") || (typename =? "Boolean") || (typename =? "Int")
  || (typename =? "Float") || (typename =? "ID").

Definition isDefinedType (typename : string) : bool :=
  negb (isIntrospectionType typename) && negb (isBuiltInScalar typename).

(** Modelled from the spec: [isNullish] of [../utility], which is not among
    the sources.  The specification calls a nullish deprecation reason or
    default value absent; an optional value is absent when it is [None]. *)
Definition isNullish {A : Type} (value : option A) : bool :=
  match value with
  | None => true
  | Some _ => false
  end.

(** ** The plugin *)

Section Plugin.

Context {lib : GraphQLJS}.

(** An argument of a field or of a directive, or a field of an input
    object; its default value may be absent. *)
Record GraphQLArgument : Type := {
  arg_name : string;
  arg_type : TypeReference;
  arg_defaultValue : option JSValue
}.

(** A field of an object or interface type; its description and its
    deprecation reason may be absent. *)
Record GraphQLField : Type := {
  field_name : string;
  field_description : option string;
  field_args : list GraphQLArgument;
  field_type : TypeReference;
  field_deprecationReason : option string
}.

Record GraphQLEnumValue : Type := {
  value_name : string;
  value_description : option string;
  value_deprecationReason : option string
}.

Record GraphQLDirective : Type := {
  directive_name : string;
  directive_args : list GraphQLArgument;
  directive_locations : list string
}.

(** The six classes of named types, each with what the printer reads of it:
    [name], then [getInterfaces()], [getFields()] (in the order of its
    keys), [getTypes()] or [getValues()]. *)
Inductive GraphQLNamedType : Type :=
| GraphQLScalarType (name : string)
| GraphQLObjectType (name : string) (interfaces : list NamedRef)
    (fields : list GraphQLField)
| GraphQLInterfaceType (name : string) (fields : list GraphQLField)
| GraphQLUnionType (name : string) (types : list NamedRef)
| GraphQLEnumType (name : string) (values : list GraphQLEnumValue)
| GraphQLInputObjectType (name : string) (fields : list GraphQLArgument).

(** [GraphQLType]: a named type or a wrapper. *)
Inductive GraphQLType : Type :=
| NamedType (t : GraphQLNamedType)
| ListType (ofType : TypeReference)
| NonNullType (ofType : TypeReference).

(** A schema: [getTypeMap()] as its entries in key order, [getDirectives()]
    and the three root operation types, each of which may be absent. *)
Record GraphQLSchema : Type := {
  getTypeMap : list (string * GraphQLNamedType);
  getDirectives : list GraphQLDirective;
  getQueryType : option NamedRef;
  getMutationType : option NamedRef;
  getSubscriptionType : option NamedRef
}.

(** [Object.keys(typeMap)] and [typeMap[typeName]]. *)
Definition keys (typeMap : list (string * GraphQLNamedType)) : list string :=
  map fst typeMap.

Fixpoint lookup (typeMap : list (string * GraphQLNamedType)) (typeName : string)
  : option GraphQLNamedType :=
  match typeMap with
  | [] => None
  | (key, type) :: typeMap => if key =? typeName then Some type else lookup typeMap typeName
  end.

(** [names.sort((name1, name2) => name1.localeCompare(name2))], as a stable
    insertion sort: for a consistent comparison the language fixes the
    result of [sort] up to the order of names that compare equal. *)
Fixpoint sort_insert (name1 : string) (sorted : list string) : list string :=
  match sorted with
  | [] => [name1]
  | name2 :: rest =>
      if (localeCompare name1 name2 <=? 0)%Z then name1 :: name2 :: rest
      else name2 :: sort_insert name1 rest
  end.

Fixpoint sort (names : list string) : list string :=
  match names with
  | [] => []
  | name :: names => sort_insert name (sort names)
  end.

Record DocumentSection : Type := {
  title : string;
  description : string
}.

(** The plugin object: the two fields its constructor sets. *)
Record HTMLDocumentSchemaPlugin : Type := {
  this_title : string;
  this_url : TypeReference -> string
}.

Definition constructor (title : string) (url : TypeReference -> string)
  : HTMLDocumentSchemaPlugin :=
  {| this_title := title; this_url := url |}.

(** The methods.  A method that reads its argument's properties takes them:
    [args] the [args] of a field or directive, [deprecated] the
    [deprecationReason] of a field or enum value, and the printers of the
    named types the [name] and the list that the type's getter returns. *)

Variable this : HTMLDocumentSchemaPlugin.

Definition value (v : JSValue) (type : TypeReference) : Outcome string :=
  ast <- astFromValue v type ;;
  text <- print ast ;;
  Returns (val text).

Definition inputValue (arg : GraphQLArgument) : Outcome string :=
  defaultValue <-
    (if isNullish (arg_defaultValue arg) then Returns EmptyString
     else match arg_defaultValue arg with
          | Some v => literal <- value v (arg_type arg) ;; Returns (" = " ++ literal)
          | None => Returns EmptyString
          end) ;;
  Returns (arg_name arg ++ ": "
           ++ useIdentifier (arg_type arg) (this_url this (arg_type arg))
           ++ defaultValue).

Definition args (args : list GraphQLArgument) : Outcome string :=
  match args with
  | [] => Returns EmptyString
  | _ =>
      printed <- mapM inputValue args ;;
      Returns ("(" ++ JS.join ", " printed ++ ")")
  end.

Definition deprecated (deprecationReason : option string) : Outcome string :=
  if isNullish deprecationReason then Returns EmptyString
  else
    match deprecationReason with
    | Some reason =>
        if (reason =? EmptyString) || (reason =? DEFAULT_DEPRECATION_REASON)
        then Returns (" " ++ keyword "@deprecated")
        else
          literal <- value (JSString reason) GraphQLString ;;
          Returns (" " ++ keyword "@deprecated"
                   ++ "(" ++ parameter "reason" ++ ": " ++ val literal ++ ")")
    | None => Returns EmptyString
    end.

Definition desc (description : option string) : string :=
  match description with
  | Some description =>
      if JS.truthy description
      then JS.join nl (map (fun descriptionLine => "  " ++ comment descriptionLine)
                           (breakText description 50)) ++ nl
      else EmptyString
  | None => EmptyString
  end.

Definition directive (directive : GraphQLDirective) : Outcome string :=
  printedArgs <- args (directive_args directive) ;;
  Returns (keyword "directive"
           ++ " " ++ keyword ("@" ++ directive_name directive) ++ printedArgs
           ++ " on " ++ JS.join " | " (map keyword (directive_locations directive))).

Definition enum (name : string) (values : list GraphQLEnumValue) : Outcome string :=
  printed <- mapM (fun v =>
                     marker <- deprecated (value_deprecationReason v) ;;
                     Returns (nl ++ desc (value_description v)
                              ++ "  " ++ property (value_name v) ++ marker))
                  values ;;
  Returns (keyword "enum" ++ " " ++ identifier name ++ " {" ++ nl
           ++ JS.join nl printed ++ nl ++ "}").

Definition field (field : GraphQLField) : Outcome string :=
  printedArgs <- args (field_args field) ;;
  marker <- deprecated (field_deprecationReason field) ;;
  Returns (nl ++ desc (field_description field)
           ++ "  " ++ property (field_name field) ++ printedArgs ++ ": "
           ++ useIdentifier (field_type field) (this_url this (field_type field))
           ++ marker).

Definition fields (fields : list GraphQLField) : Outcome string :=
  printed <- mapM field fields ;;
  Returns (JS.join nl printed).

Definition inputObject (name : string) (fields : list GraphQLArgument) : Outcome string :=
  printed <- mapM (fun f => line <- inputValue f ;; Returns ("  " ++ line)) fields ;;
  Returns (keyword "input" ++ " " ++ identifier name ++ " {" ++ nl
           ++ JS.join nl printed ++ nl ++ "}").

Definition interfaces (name : string) (fieldList : list GraphQLField) : Outcome string :=
  printed <- fields fieldList ;;
  Returns (keyword "interface" ++ " " ++ identifier name ++ " {" ++ nl
           ++ printed ++ nl ++ "}").

Definition object (name : string) (interfaces : list NamedRef)
  (fieldList : list GraphQLField) : Outcome string :=
  let implementedInterfaces :=
    match interfaces with
    | [] => EmptyString
    | _ => " " ++ keyword "implements" ++ " "
           ++ JS.join ", " (map (fun i => useIdentifier (Named i) (this_url this (Named i)))
                                interfaces)
    end in
  printed <- fields fieldList ;;
  Returns (keyword "type" ++ " " ++ identifier name ++ implementedInterfaces ++ " {" ++ nl
           ++ printed ++ nl ++ "}").

Definition scalar (name : string) : string :=
  keyword "scalar" ++ " " ++ identifier name.

Definition union (name : string) (types : list NamedRef) : string :=
  keyword "union" ++ name ++ " = "
  ++ JS.join " | " (map (fun type => useIdentifier (Named type) (this_url this (Named type)))
                        types).

(** [type] returns a string or [null]; [None] is [null]. *)
Definition type (type : GraphQLType) : Outcome (option string) :=
  match type with
  | NamedType (GraphQLScalarType name) => Returns (Some (scalar name))
  | NamedType (GraphQLObjectType name ifaces fieldList) =>
      s <- object name ifaces fieldList ;; Returns (Some s)
  | NamedType (GraphQLInterfaceType name fieldList) =>
      s <- interfaces name fieldList ;; Returns (Some s)
  | NamedType (GraphQLUnionType name types) => Returns (Some (union name types))
  | NamedType (GraphQLEnumType name values) =>
      s <- enum name values ;; Returns (Some s)
  | NamedType (GraphQLInputObjectType name fieldList) =>
      s <- inputObject name fieldList ;; Returns (Some s)
  | ListType _ | NonNullType _ => Returns None
  end.

Definition schemaDefinition (schema : GraphQLSchema) : string :=
  let operation (name : string) (type : option NamedRef) : list string :=
    match type with
    | Some t => ["  " ++ property name ++ ": "
                 ++ useIdentifier (Named t) (this_url this (Named t))]
    | None => []
    end in
  let operationTypes :=
    (operation "query" (getQueryType schema)
     ++ operation "mutation" (getMutationType schema)
     ++ operation "subscription" (getSubscriptionType schema))%list in
  keyword "schema" ++ " {" ++ nl ++ JS.join nl operationTypes ++ nl ++ "}".

(** The constants [directives] and [types] of [filteredSchema]. *)
Definition filteredSchema_directives (schema : GraphQLSchema)
  (directiveFilter : string -> bool) : list GraphQLDirective :=
  filter (fun directive => directiveFilter (directive_name directive))
         (getDirectives schema).

Definition filteredSchema_typeNames (schema : GraphQLSchema)
  (typeFilter : string -> bool) : list string :=
  sort (filter typeFilter (keys (getTypeMap schema))).

Definition filteredSchema_types (schema : GraphQLSchema)
  (typeFilter : string -> bool) : list (option GraphQLNamedType) :=
  map (lookup (getTypeMap schema)) (filteredSchema_typeNames schema typeFilter).

(** [this.type(t)] on an entry of [types]; an entry that is [undefined] is
    an instance of no class. *)
Definition type_of_entry (entry : option GraphQLNamedType) : Outcome (option string) :=
  match entry with
  | Some t => type (NamedType t)
  | None => Returns None
  end.

Definition filteredSchema (schema : GraphQLSchema)
  (directiveFilter typeFilter : string -> bool) : Outcome string :=
  let directives := filteredSchema_directives schema directiveFilter in
  let types := filteredSchema_types schema typeFilter in
  printedDirectives <- mapM directive directives ;;
  printedTypes <- mapM type_of_entry types ;;
  Returns (JS.join_nullable (nl ++ nl)
             ([Some (schemaDefinition schema)]
              ++ map Some printedDirectives ++ printedTypes)%list
           ++ nl).

Definition schema (schema : GraphQLSchema) : Outcome string :=
  filteredSchema schema (fun n => negb (isSpecDirective n)) isDefinedType.

Definition getSections (type_or_schema : GraphQLType + GraphQLSchema)
  : Outcome (option DocumentSection) :=
  definition <-
    match type_or_schema with
    | inr s => printed <- schema s ;; Returns (Some printed)
    | inl t => type t
    end ;;
  match definition with
  | Some definition =>
      if JS.truthy definition
      then Returns (Some {| title := this_title this;
                            description := "<pre class=" ++ dq ++ "code" ++ dq ++ ">"
                                           ++ definition ++ "</pre>" |})
      else Returns None
  | None => Returns None
  end.

End Plugin.

(** * The vocabulary of the properties *)

(** ** Texts and lines *)

(** A string with no white space in it. *)
Fixpoint spaceless (s : string) : bool :=
  match s with
  | EmptyString => true
  | String c rest => negb (JS.isWhiteSpace c) && spaceless rest
  end.

Definition nonempty (s : string) : bool := negb (s =? EmptyString).

(** The white-space-normalized text: its words joined by single spaces. *)
Definition normalized (text : string) : string :=
  JS.join " " (filter nonempty (JS.split_ws text)).

(** A line that is one word longer than the width. *)
Definition single_long_word (len : Z) (line : string) : Prop :=
  spaceless line = true /\ (len < Z.of_nat (String.length line))%Z.

Section Lines.

Variable len : Z.

(** A line that, cut before any of its spaces, is at most [len] long. *)
Definition cuts_fit (line : string) : Prop :=
  forall p q, line = p ++ " " ++ q -> (Z.of_nat (String.length p) <= len)%Z.

(** The line under construction was not flushed: it is empty or fits. *)
Definition pending (line : string) : Prop :=
  line = EmptyString \/ (Z.of_nat (String.length line) <= len)%Z.

(** The line after [word] is appended, as the loop computes it. *)
Definition extend (line word : string) : string :=
  line ++ (if (0 <? String.length line)%nat then " " else EmptyString) ++ word.

(** The line under construction, as an entry of the joined list. *)
Definition entry (line : string) : list string :=
  if (0 <? String.length line)%nat then [line] else [].

End Lines.

(** ** Wrappers *)

(** The two wrappers, and a reference built from its wrappers, outermost
    first. *)
Inductive Wrapper : Type := ListWrapper | NonNullWrapper.

Definition wrap (w : Wrapper) (t : TypeReference) : TypeReference :=
  match w with
  | ListWrapper => GraphQLList t
  | NonNullWrapper => GraphQLNonNull t
  end.

Definition wrap_all (outer : list Wrapper) (t : TypeReference) : TypeReference :=
  fold_right wrap t outer.

Definition marker (w : Wrapper) : string :=
  match w with
  | ListWrapper => "[]"
  | NonNullWrapper => "!"
  end.

(** ** How a printed block ends *)

Definition ends_with (suffix s : string) : Prop :=
  exists body, s = body ++ suffix.

Fixpoint last_char (s : string) : option ascii :=
  match s with
  | EmptyString => None
  | String c EmptyString => Some c
  | String _ rest => last_char rest
  end.

(** A string whose last character is not a line feed. *)
Definition ends_in_text (s : string) : Prop :=
  exists c, last_char s = Some c /\ c <> ascii_of_nat 10.

(** ** Well-formed schemas *)

Section Schemas.

Context {lib : GraphQLJS}.
Variable this : HTMLDocumentSchemaPlugin.

(** The values of a schema object that the printer turns into literals are
    well formed when [astFromValue] and [print] return on them. *)
Definition literal_ok (v : JSValue) (type : TypeReference) : Prop :=
  exists node text, astFromValue v type = Returns node /\ print node = Returns text.

Definition arg_ok (arg : GraphQLArgument) : Prop :=
  match arg_defaultValue arg with
  | Some v => literal_ok v (arg_type arg)
  | None => True
  end.

Definition reason_ok (deprecationReason : option string) : Prop :=
  match deprecationReason with
  | Some reason => literal_ok (JSString reason) GraphQLString
  | None => True
  end.

Definition field_ok (f : GraphQLField) : Prop :=
  Forall arg_ok (field_args f) /\ reason_ok (field_deprecationReason f).

Definition directive_ok (d : GraphQLDirective) : Prop :=
  Forall arg_ok (directive_args d).

Definition type_ok (t : GraphQLNamedType) : Prop :=
  match t with
  | GraphQLScalarType _ => True
  | GraphQLObjectType _ _ fieldList => Forall field_ok fieldList
  | GraphQLInterfaceType _ fieldList => Forall field_ok fieldList
  | GraphQLUnionType _ _ => True
  | GraphQLEnumType _ values =>
      Forall (fun v => reason_ok (value_deprecationReason v)) values
  | GraphQLInputObjectType _ fieldList => Forall arg_ok fieldList
  end.

(** The well-formed literals of the directives and types that the filters
    let through. *)
Definition schema_ok (s : GraphQLSchema) : Prop :=
  (forall d, In d (getDirectives s) -> isSpecDirective (directive_name d) = false ->
             directive_ok d)
  /\ (forall typename t, lookup (getTypeMap s) typename = Some t ->
                         isDefinedType typename = true -> type_ok t).

(** The comparison orders the names: it is total and transitive. *)
Definition consistent_comparison : Prop :=
  (forall a b, (0 < localeCompare a b)%Z -> (localeCompare b a <= 0)%Z)
  /\ (forall a b c, (localeCompare a b <= 0)%Z -> (localeCompare b c <= 0)%Z ->
                    (localeCompare a c <= 0)%Z).

Definition in_order (name1 name2 : string) : Prop :=
  (localeCompare name1 name2 <= 0)%Z.

(** The root operation types that are present, in the order in which
    [schemaDefinition] asks for them, each with its keyword. *)
Definition root_operations (s : GraphQLSchema) : list (string * NamedRef) :=
  flat_map (fun '(operation, type) =>
              match type with
              | Some t => [(operation, t)]
              | None => []
              end)
           [("query", getQueryType s); ("mutation", getMutationType s);
            ("subscription", getSubscriptionType s)].

Definition operation_line (entry : string * NamedRef) : string :=
  "  " ++ property (fst entry) ++ ": "
  ++ useIdentifier (Named (snd entry)) (this_url this (Named (snd entry))).

End Schemas.

(** ** A sample environment and schema

    The statements are tried on them: a value is a string, or a value of no
    type, which [astFromValue] rejects; a string is printed between quotes;
    names compare by their code units; every type has the same address. *)

Definition sample_lib : GraphQLJS := {|
  JSValue := option string;
  JSString := Some;
  ValueNode := string;
  astFromValue := fun v _ => match v with Some s => Returns s | None => Throws end;
  print := fun node => Returns (dq ++ node ++ dq);
  GraphQLString := Named {| ref_name := "String"; ref_description := None |};
  DEFAULT_DEPRECATION_REASON := "No longer supported";
  localeCompare := fun a b =>
    match String.compare a b with
    | Lt => (-1)%Z
    | Eq => 0%Z
    | Gt => 1%Z
    end
|}.

Definition sample_plugin : HTMLDocumentSchemaPlugin :=
  constructor "Schema" (fun _ => "#").

Definition cat : NamedRef := {| ref_name := "Cat"; ref_description := None |}.
Definition dog : NamedRef := {| ref_name := "Dog"; ref_description := Some "A dog" |}.

Definition string_ref : NamedRef := {| ref_name := "String"; ref_description := None |}.
Definition int_ref : NamedRef := {| ref_name := "Int"; ref_description := None |}.

Definition sample_name_arg : @GraphQLArgument sample_lib :=
  @Build_GraphQLArgument sample_lib "name" (GraphQLNonNull (Named string_ref))
    (Some (Some "any")).

Definition sample_unit_arg : @GraphQLArgument sample_lib :=
  @Build_GraphQLArgument sample_lib "unit" (Named string_ref) (Some (Some "cm")).

Definition sample_size_field : @GraphQLField sample_lib := {|
  field_name := "size";
  field_description := Some "The size of the widget";
  field_args := [sample_unit_arg];
  field_type := GraphQLNonNull (GraphQLList (Named int_ref));
  field_deprecationReason := Some "use X instead"
|}.

Definition sample_filter : @GraphQLNamedType sample_lib :=
  GraphQLInputObjectType "Filter" [sample_name_arg].

Definition sample_widget : @GraphQLNamedType sample_lib :=
  GraphQLObjectType "Widget" [] [sample_size_field].

Definition sample_schema : @GraphQLSchema sample_lib := {|
  getTypeMap :=
    [ ("Widget", sample_widget);
      ("__Schema", GraphQLObjectType "__Schema" [] []);
      ("String", GraphQLScalarType "String");
      ("Pet", GraphQLUnionType "Pet" [cat; dog]) ];
  getDirectives :=
    [ {| directive_name := "skip"; directive_args := [];
         directive_locations := ["FIELD"] |};
      {| directive_name := "auth"; directive_args := [];
         directive_locations := ["FIELD_DEFINITION"; "OBJECT"] |} ];
  getQueryType := Some {| ref_name := "Query"; ref_description := None |};
  getMutationType := None;
  getSubscriptionType := None
|}.

Definition sample_section : DocumentSection := {|
  title := "Schema";
  description := "<pre class=" ++ dq ++ "code" ++ dq ++ ">" ++ scalar "Date" ++ "</pre>"
|}.

(** ** Vocabulary of the further properties *)

(** A text made of white space only; the empty text is one. *)
Fixpoint spaces_only (s : string) : bool :=
  match s with
  | EmptyString => true
  | String c rest => JS.isWhiteSpace c && spaces_only rest
  end.

(** Words that can stand on one line: none holds white space, and none but
    the last is empty. *)
Fixpoint words_ok (words : list string) : bool :=
  match words with
  | [] => true
  | [word] => spaceless word
  | word :: words => spaceless word && nonempty word && words_ok words
  end.

(** The line that the loop builds from [line] by appending [words]. *)
Definition glue (line : string) (words : list string) : string :=
  fold_left extend words line.

(** A line built from a first word, which is not empty, and more words. *)
Definition is_group (line : string) : Prop :=
  exists word words,
    nonempty word = true /\ spaceless word = true /\ words_ok words = true
    /\ line = glue word words.

(** A line built from words none of which is empty. *)
Definition is_strict_group (line : string) : Prop :=
  exists word words,
    nonempty word = true /\ spaceless word = true
    /\ Forall (fun w => nonempty w = true /\ spaceless w = true) words
    /\ line = glue word words.

Section Rejections.

Context {lib : GraphQLJS}.

(** What makes a printer throw: a default value that is present and that
    [value] rejects, or a deprecation reason, neither empty nor the default
    one, that [value] rejects as a string. *)
Definition arg_rejected (arg : GraphQLArgument) : Prop :=
  exists v, arg_defaultValue arg = Some v /\ value v (arg_type arg) = Throws.

Definition reason_rejected (deprecationReason : option string) : Prop :=
  exists reason,
    deprecationReason = Some reason
    /\ reason <> EmptyString /\ reason <> DEFAULT_DEPRECATION_REASON
    /\ value (JSString reason) GraphQLString = Throws.

Definition field_rejected (f : GraphQLField) : Prop :=
  Exists arg_rejected (field_args f) \/ reason_rejected (field_deprecationReason f).

Definition type_rejected (t : GraphQLNamedType) : Prop :=
  match t with
  | GraphQLScalarType _ => False
  | GraphQLObjectType _ _ fieldList => Exists field_rejected fieldList
  | GraphQLInterfaceType _ fieldList => Exists field_rejected fieldList
  | GraphQLUnionType _ _ => False
  | GraphQLEnumType _ values =>
      Exists (fun v => reason_rejected (value_deprecationReason v)) values
  | GraphQLInputObjectType _ fieldList => Exists arg_rejected fieldList
  end.

(** The schema without the directives and the types that the filters of
    [schema] stop. *)
Definition defined_part (s : GraphQLSchema) : GraphQLSchema := {|
  getTypeMap := filter (fun entry => isDefinedType (fst entry)) (getTypeMap s);
  getDirectives :=
    filter (fun d => negb (isSpecDirective (directive_name d))) (getDirectives s);
  getQueryType := getQueryType s;
  getMutationType := getMutationType s;
  getSubscriptionType := getSubscriptionType s
|}.

End Rejections.

(** An argument of the sample environment whose default value is of no
    type. *)
Definition sample_rejected_arg : @GraphQLArgument sample_lib :=
  @Build_GraphQLArgument sample_lib "limit" (Named int_ref) (Some None).

(** * Properties *)

(** ** Strings and joins *)

Lemma string_app_assoc (a b c : string) : (a ++ b) ++ c = a ++ (b ++ c).
Proof.
  induction a as [|x a IH]; simpl; [reflexivity | now rewrite IH].
Qed.

Lemma string_app_nil_r (a : string) : a ++ EmptyString = a.
Proof.
  induction a as [|x a IH]; simpl; [reflexivity | now rewrite IH].
Qed.

Lemma string_length_app (a b : string) :
  String.length (a ++ b) = (String.length a + String.length b)%nat.
Proof.
  induction a as [|x a IH]; simpl; [reflexivity | now rewrite IH].
Qed.

Lemma join_cons (sep x : string) (items : list string) :
  items <> [] -> JS.join sep (x :: items) = x ++ sep ++ JS.join sep items.
Proof.
  destruct items; [congruence | reflexivity].
Qed.

(** Two neighbours of a joined list may be joined beforehand. *)
Lemma join_merge (sep a b : string) (before after : list string) :
  JS.join sep (before ++ (a ++ sep ++ b)%string :: after)%list
  = JS.join sep (before ++ a :: b :: after)%list.
Proof.
  induction before as [|x before IH].
  - simpl app. rewrite (join_cons sep a) by discriminate.
    destruct after as [|y after].
    + reflexivity.
    + rewrite !join_cons by discriminate.
      now rewrite !string_app_assoc.
  - simpl app. rewrite !join_cons by (destruct before; discriminate).
    now rewrite IH.
Qed.

(** ** What [split] returns *)

Lemma split_ws_spaceless (text : string) :
  Forall (fun word => spaceless word = true) (JS.split_ws text).
Proof.
  induction text as [|c rest IH]; simpl.
  - repeat constructor.
  - destruct (JS.isWhiteSpace c) eqn:Hc.
    + destruct (JS.startsWithSpace rest); [assumption | now constructor].
    + destruct (JS.split_ws rest) as [|piece pieces].
      * repeat constructor. simpl. now rewrite Hc.
      * inversion IH as [|? ? Hpiece Hpieces]; subst.
        constructor; [|assumption]. simpl. now rewrite Hc, Hpiece.
Qed.

Lemma split_ws_head (c : ascii) (rest : string) :
  JS.isWhiteSpace c = false ->
  exists piece pieces, JS.split_ws (String c rest) = String c piece :: pieces.
Proof.
  intros Hc. simpl. rewrite Hc.
  destruct (JS.split_ws rest) as [|piece pieces]; eauto.
Qed.

(** Only the first and the last piece can be empty: when the text does not
    end in white space, every piece after the first is a word. *)
Lemma split_ws_tail_nonempty (text : string) :
  JS.endsWithSpace text = false ->
  exists first others,
    JS.split_ws text = first :: others /\ Forall (fun w => nonempty w = true) others.
Proof.
  induction text as [|c rest IH]; intros Hend.
  - exists EmptyString, []. split; [reflexivity | constructor].
  - destruct rest as [|d rest'].
    + simpl in Hend. simpl. rewrite Hend.
      exists (String c EmptyString), []. split; [reflexivity | constructor].
    + assert (Hrest : JS.endsWithSpace (String d rest') = false) by exact Hend.
      destruct (IH Hrest) as (first & others & Hsplit & Hothers).
      change (JS.split_ws (String c (String d rest')))
        with (if JS.isWhiteSpace c
              then if JS.startsWithSpace (String d rest')
                   then JS.split_ws (String d rest')
                   else EmptyString :: JS.split_ws (String d rest')
              else match JS.split_ws (String d rest') with
                   | piece :: pieces => String c piece :: pieces
                   | [] => [String c EmptyString]
                   end).
      destruct (JS.isWhiteSpace c).
      * destruct (JS.startsWithSpace (String d rest')) eqn:Hd.
        -- eauto.
        -- destruct (split_ws_head d rest' Hd) as (piece & pieces & Hpiece).
           rewrite Hpiece in Hsplit |- *.
           injection Hsplit as <- <-.
           exists EmptyString, (String d piece :: pieces).
           split; [reflexivity | now constructor].
      * rewrite Hsplit. eauto.
Qed.

(** A cut of [a ++ " " ++ b] at a space falls in [a], at the middle space or
    in [b]. *)
Lemma cut_at_space (a b p q : string) :
  a ++ " " ++ b = p ++ " " ++ q ->
  (exists r, a = p ++ " " ++ r) \/ a = p \/ (exists r, b = r ++ " " ++ q).
Proof.
  revert p. induction a as [|x a IH]; intros [|y p] H; simpl in H.
  - right. now left.
  - right. right. injection H as _ H. eauto.
  - left. injection H as -> H. exists a. reflexivity.
  - injection H as -> H.
    destruct (IH p H) as [[r ->] | [-> | [r ->]]].
    + left. exists r. reflexivity.
    + right. now left.
    + right. right. eauto.
Qed.

Lemma spaceless_no_cut (word p q : string) :
  spaceless word = true -> word <> p ++ " " ++ q.
Proof.
  revert word. induction p as [|y p IH]; intros word Hword ->; simpl in Hword.
  - discriminate.
  - apply andb_prop in Hword as [_ Hword]. now apply (IH _ Hword).
Qed.

(** ** The text wrapper *)

Section BreakText.

Variable len : Z.

Lemma breakText_loop_cons (word : string) (words lines : list string) (line : string) :
  breakText_loop len (word :: words) lines line
  = if (len <? Z.of_nat (String.length (extend line word)))%Z
    then breakText_loop len words (lines ++ [extend line word])%list EmptyString
    else breakText_loop len words lines (extend line word).
Proof. reflexivity. Qed.

(** [lines] only grows at its end. *)
Lemma breakText_loop_lines (words lines : list string) (line : string) :
  breakText_loop len words lines line
  = (lines ++ breakText_loop len words [] line)%list.
Proof.
  revert lines line. induction words as [|word words IH]; intros lines line.
  - simpl. destruct (0 <? String.length line)%nat; [reflexivity | now rewrite app_nil_r].
  - rewrite !breakText_loop_cons.
    destruct (len <? Z.of_nat (String.length (extend line word)))%Z.
    + rewrite IH, (IH ([] ++ _)%list). now rewrite <- app_assoc.
    + apply IH.
Qed.

Lemma extend_cases (line word : string) :
  (line = EmptyString /\ extend line word = word)
  \/ (line <> EmptyString /\ extend line word = line ++ " " ++ word).
Proof.
  destruct line; [left | right]; split; try reflexivity; discriminate.
Qed.

Lemma extend_length (line word : string) :
  (String.length word <= String.length (extend line word))%nat.
Proof.
  unfold extend. rewrite !string_length_app. lia.
Qed.

Lemma pending_after (line : string) :
  (len <? Z.of_nat (String.length line))%Z = false -> pending len line.
Proof. intros H. right. now apply Z.ltb_ge. Qed.

Lemma cuts_fit_extend (line word : string) :
  pending len line -> cuts_fit len line -> spaceless word = true ->
  cuts_fit len (extend line word).
Proof.
  intros Hpend Hline Hword p q Hcut.
  destruct (extend_cases line word) as [[_ E] | [Hne E]]; rewrite E in Hcut.
  - now apply spaceless_no_cut in Hcut.
  - destruct (cut_at_space _ _ _ _ Hcut) as [[r Hr] | [<- | [r Hr]]].
    + exact (Hline _ _ Hr).
    + destruct Hpend; [contradiction | assumption].
    + now apply spaceless_no_cut in Hr.
Qed.

Lemma breakText_loop_cuts (words : list string) (line : string) :
  Forall (fun word => spaceless word = true) words ->
  pending len line -> cuts_fit len line ->
  Forall (cuts_fit len) (breakText_loop len words [] line).
Proof.
  revert line. induction words as [|word words IH]; intros line Hwords Hpend Hline.
  - simpl. destruct (0 <? String.length line)%nat; repeat constructor. exact Hline.
  - inversion Hwords as [|? ? Hword Hrest]; subst.
    pose proof (cuts_fit_extend line word Hpend Hline Hword) as Hnew.
    rewrite breakText_loop_cons.
    destruct (len <? Z.of_nat (String.length (extend line word)))%Z eqn:Hflush.
    + rewrite breakText_loop_lines. constructor; [exact Hnew|].
      apply IH; [assumption | now left |].
      intros p q Hcut. destruct p; discriminate.
    + apply IH; [assumption | now apply pending_after | exact Hnew].
Qed.

Lemma breakText_loop_flushed (words : list string) (line : string) :
  Forall (fun l => (len < Z.of_nat (String.length l))%Z)
         (removelast (breakText_loop len words [] line)).
Proof.
  revert line. induction words as [|word words IH]; intros line.
  - simpl. destruct (0 <? String.length line)%nat; constructor.
  - rewrite breakText_loop_cons.
    destruct (len <? Z.of_nat (String.length (extend line word)))%Z eqn:Hflush.
    + rewrite breakText_loop_lines. simpl app.
      specialize (IH EmptyString).
      destruct (breakText_loop len words [] EmptyString) as [|l ls] eqn:E.
      * constructor.
      * change (removelast (extend line word :: l :: ls))
          with (extend line word :: removelast (l :: ls)).
        constructor; [now apply Z.ltb_lt | exact IH].
    + apply IH.
Qed.

(** A word longer than [len] is flushed as soon as it is appended. *)
Lemma breakText_loop_long_word (word : string) (words : list string) (line : string) :
  pending len line -> In word words -> (len < Z.of_nat (String.length word))%Z ->
  exists l, In l (breakText_loop len words [] line)
            /\ (len < Z.of_nat (String.length l))%Z
            /\ (l = word
                \/ exists p, l = p ++ " " ++ word
                             /\ (Z.of_nat (String.length p) <= len)%Z).
Proof.
  revert line. induction words as [|w words IH]; intros line Hpend Hin Hlong.
  - contradiction.
  - rewrite breakText_loop_cons. destruct Hin as [-> | Hin].
    + pose proof (extend_length line word) as Hlen.
      assert (Hflush : (len <? Z.of_nat (String.length (extend line word)))%Z = true)
        by (apply Z.ltb_lt; lia).
      rewrite Hflush, breakText_loop_lines.
      exists (extend line word). split; [now left|].
      split; [now apply Z.ltb_lt|].
      destruct (extend_cases line word) as [[_ E] | [Hne E]]; rewrite E.
      * now left.
      * right. exists line. split; [reflexivity|].
        destruct Hpend; [contradiction | assumption].
    + destruct (len <? Z.of_nat (String.length (extend line w)))%Z eqn:Hflush.
      * rewrite breakText_loop_lines.
        destruct (IH EmptyString (or_introl eq_refl) Hin Hlong) as (l & Hl & Hshape).
        exists l. split; [now right | exact Hshape].
      * apply IH; [now apply pending_after | assumption | assumption].
Qed.

Lemma breakText_loop_join (words lines : list string) (line : string) :
  Forall (fun w => nonempty w = true) words ->
  JS.join " " (breakText_loop len words lines line)
  = JS.join " " (lines ++ entry line ++ words)%list.
Proof.
  revert lines line. induction words as [|word words IH]; intros lines line Hwords.
  - simpl. unfold entry. destruct (0 <? String.length line)%nat; simpl;
      [reflexivity | now rewrite app_nil_r].
  - inversion Hwords as [|? ? Hword Hrest]; subst.
    assert (Hentry : entry (extend line word) = [extend line word]).
    { unfold entry. pose proof (extend_length line word) as Hlen.
      destruct word; [discriminate|]. simpl in Hlen.
      destruct (String.length (extend line (String a word))); [lia | reflexivity]. }
    assert (Hgoal : JS.join " " (lines ++ [extend line word] ++ words)%list
                    = JS.join " " (lines ++ entry line ++ word :: words)%list).
    { destruct (extend_cases line word) as [[-> E] | [Hne E]]; rewrite E.
      - reflexivity.
      - unfold entry. destruct line; [contradiction|]. simpl Nat.ltb. cbv iota.
        apply (join_merge " "). }
    rewrite breakText_loop_cons.
    destruct (len <? Z.of_nat (String.length (extend line word)))%Z.
    + rewrite IH by assumption. simpl entry. simpl app at 2.
      rewrite <- app_assoc. exact Hgoal.
    + rewrite IH by assumption. rewrite Hentry. exact Hgoal.
Qed.

End BreakText.

(** C1, as the specification states it, fails: wrapping [aa bb cc] at width 4
    gives the lines [aa bb] and [cc]; the first is not the last line, holds
    two words and is 5 long. *)
Lemma breakText_width_refuted :
  ~ (forall (text : string) (len : Z),
        (1 <= len)%Z ->
        Forall (fun line =>
                  single_long_word len line
                  \/ (Z.of_nat (String.length line) <= len)%Z)
               (removelast (breakText text len))).
Proof.
  intros H. specialize (H "aa bb cc" 4%Z ltac:(lia)).
  change (removelast (breakText "aa bb cc" 4)) with ["aa bb"] in H.
  inversion H as [|? ? [[Hword _] | Hfit] _]; subst.
  - discriminate Hword.
  - simpl in Hfit. lia.
Qed.

(** C1, amended: for every description and every width, every produced line
    except possibly the last is longer than the width (a line is flushed once
    it has grown past the width), and every produced line cut before any of
    its spaces, so in particular without its last word, is at most the width
    long. *)
Theorem breakText_line_lengths (text : string) (len : Z) :
  Forall (fun line => (len < Z.of_nat (String.length line))%Z)
         (removelast (breakText text len))
  /\ Forall (fun line =>
               forall p q, line = p ++ " " ++ q ->
                           (Z.of_nat (String.length p) <= len)%Z)
            (breakText text len).
Proof.
  split.
  - apply breakText_loop_flushed.
  - apply (breakText_loop_cuts len).
    + apply split_ws_spaceless.
    + now left.
    + intros p q Hcut. destruct p; discriminate.
Qed.

(** C2, as the specification states it, fails: wrapping [a bbbbbb] at width 3
    gives the one line [a bbbbbb], so the word [bbbbbb], longer than the
    width, is not alone on a line. *)
Lemma breakText_long_word_alone_refuted :
  ~ (forall (text : string) (len : Z) (word : string),
        In word (JS.split_ws text) ->
        (len < Z.of_nat (String.length word))%Z ->
        In word (breakText text len)).
Proof.
  intros H. specialize (H "a bbbbbb" 3%Z "bbbbbb").
  change (breakText "a bbbbbb" 3) with ["a bbbbbb"] in H.
  destruct H as [H | []].
  - simpl. auto.
  - simpl. lia.
  - discriminate H.
Qed.

(** C2, amended: for every text and width, a word longer than the width is
    never split and always ends an output line: that line is the word alone,
    or the words pending before it (at most the width long together), a
    space and the word. *)
Theorem breakText_long_word (text : string) (len : Z) (word : string) :
  In word (JS.split_ws text) ->
  (len < Z.of_nat (String.length word))%Z ->
  exists line,
    In line (breakText text len)
    /\ (len < Z.of_nat (String.length line))%Z
    /\ (line = word
        \/ exists p, line = p ++ " " ++ word
                     /\ (Z.of_nat (String.length p) <= len)%Z).
Proof.
  intros Hin Hlong. apply breakText_loop_long_word; [now left | assumption | assumption].
Qed.

Lemma breakText_long_word_witness :
  exists line,
    In line (breakText "a bbbbbb" 3)
    /\ (3 < Z.of_nat (String.length line))%Z
    /\ (line = "bbbbbb"
        \/ exists p, line = p ++ " " ++ "bbbbbb"
                     /\ (Z.of_nat (String.length p) <= 3)%Z).
Proof.
  apply (breakText_long_word "a bbbbbb" 3 "bbbbbb").
  - simpl. auto.
  - simpl. lia.
Defined.

(** C8, as the specification states it, fails: wrapping [a ] (one word and a
    trailing space) at width 5 gives the one line [a ], which is not the
    normalized text [a]; and a leading space is dropped, so the lines do not
    join to the pieces of [split] joined by spaces either. *)
Lemma breakText_join_refuted :
  ~ (forall (text : string) (len : Z),
        JS.join " " (breakText text len) = normalized text)
  /\ ~ (forall (text : string) (len : Z),
           JS.join " " (breakText text len) = JS.join " " (JS.split_ws text)).
Proof.
  split; intros H.
  - specialize (H "a " 5%Z). discriminate H.
  - specialize (H " a" 5%Z). discriminate H.
Qed.

(** C8, amended: for every text that does not end in white space and every
    width that is not negative, the produced lines joined by single spaces
    are the white-space-normalized text, the words of the text joined by
    single spaces. *)
Theorem breakText_join (text : string) (len : Z) :
  (0 <= len)%Z ->
  JS.endsWithSpace text = false ->
  JS.join " " (breakText text len) = normalized text.
Proof.
  intros Hlen Hend. unfold breakText, normalized.
  destruct (split_ws_tail_nonempty text Hend) as (first & others & -> & Hothers).
  assert (Hfilter : filter nonempty others = others).
  { clear -Hothers. induction Hothers as [|w ws Hw _ IH]; simpl; [reflexivity|].
    now rewrite Hw, IH. }
  destruct first as [|c first].
  - rewrite breakText_loop_cons.
    change (extend EmptyString EmptyString) with EmptyString.
    replace (len <? Z.of_nat (String.length EmptyString))%Z with false
      by (symmetry; apply Z.ltb_ge; simpl; lia).
    rewrite breakText_loop_join by assumption.
    simpl. now rewrite Hfilter.
  - rewrite breakText_loop_join by (constructor; [reflexivity | assumption]).
    simpl filter. now rewrite Hfilter.
Qed.

Lemma breakText_join_witness :
  JS.join " " (breakText "  aa   bb cc" 4) = normalized "  aa   bb cc".
Proof.
  apply (breakText_join "  aa   bb cc" 4); [lia | reflexivity].
Defined.

(** ** Type references *)

Lemma useIdentifier_loop_wrap_all (outer : list Wrapper) (innermost : Wrapper)
  (t : NamedRef) (usedAs : string) :
  useIdentifier_loop (wrap_all outer (wrap innermost (Named t))) usedAs
  = (t, marker innermost).
Proof.
  revert usedAs. induction outer as [|w outer IH]; intros usedAs.
  - destruct innermost; reflexivity.
  - destruct w; simpl; apply IH.
Qed.

(** Every reference is a named type, or a named type in one innermost wrapper
    and any number of outer ones. *)
Lemma type_reference_shape (type : TypeReference) :
  (exists t, type = Named t)
  \/ (exists outer innermost t, type = wrap_all outer (wrap innermost (Named t))).
Proof.
  induction type as [t | ofType IH | ofType IH].
  - left. eauto.
  - right. destruct IH as [[t ->] | (outer & innermost & t & ->)].
    + exists [], ListWrapper, t. reflexivity.
    + exists (ListWrapper :: outer), innermost, t. reflexivity.
  - right. destruct IH as [[t ->] | (outer & innermost & t & ->)].
    + exists [], NonNullWrapper, t. reflexivity.
    + exists (NonNullWrapper :: outer), innermost, t. reflexivity.
Qed.

(** C3: a bare named reference is printed as its link alone, and a reference
    with wrappers is printed as the link followed by the marker of the
    innermost wrapper only ([[]] for a list, [!] for a non-null), whatever the
    outer wrappers are. *)
Theorem useIdentifier_innermost_marker (outer : list Wrapper) (innermost : Wrapper)
  (t : NamedRef) (url : string) :
  let link :=
    "<a class=" ++ dq ++ "support type" ++ dq ++ " href=" ++ dq ++ url ++ dq
      ++ " title=" ++ dq ++ JS.or_else (ref_description t) (ref_name t) ++ dq ++ ">"
      ++ ref_name t ++ "</a>" in
  useIdentifier (Named t) url = link
  /\ useIdentifier (wrap_all outer (wrap innermost (Named t))) url
     = link ++ "<span class=" ++ dq ++ "variable language" ++ dq ++ ">"
         ++ marker innermost ++ "</span>".
Proof.
  intros link. subst link. split.
  - unfold useIdentifier. cbn [useIdentifier_loop]. cbv beta iota zeta.
    change (JS.truthy EmptyString) with false. cbv iota.
    now rewrite ?string_app_assoc, string_app_nil_r.
  - unfold useIdentifier. rewrite useIdentifier_loop_wrap_all. cbv beta iota zeta.
    replace (JS.truthy (marker innermost)) with true by now destruct innermost.
    cbv iota. now rewrite !string_app_assoc.
Qed.

(** ** The filter predicates *)

Lemma isIntrospectionType_prefix (typename : string) :
  isIntrospectionType typename = String.prefix "__" typename.
Proof.
  unfold isIntrospectionType. destruct typename as [|c rest]; [reflexivity|].
  unfold String.index; fold String.index.
  destruct (String.prefix "__" (String c rest)); [reflexivity|].
  now destruct (String.index 0 "__" rest).
Qed.

Lemma isBuiltInScalar_spec (typename : string) :
  isBuiltInScalar typename = true
  <-> In typename ["String"; "Boolean"; "Int"; "Float"; "ID"].
Proof.
  unfold isBuiltInScalar. rewrite !orb_true_iff, !String.eqb_eq. simpl.
  intuition congruence.
Qed.

Lemma isDefinedType_spec (typename : string) :
  isDefinedType typename = true
  <-> String.prefix "__" typename = false
      /\ ~ In typename ["String"; "Boolean"; "Int"; "Float"; "ID"].
Proof.
  unfold isDefinedType.
  rewrite andb_true_iff, !negb_true_iff, isIntrospectionType_prefix.
  rewrite <- isBuiltInScalar_spec.
  destruct (isBuiltInScalar typename); intuition congruence.
Qed.

(** ** Calls that return *)

Lemma mapM_returns {A B : Type} (f : A -> Outcome B) (items : list A) :
  Forall (fun item => exists b, f item = Returns b) items ->
  exists bs, mapM f items = Returns bs
             /\ Forall2 (fun item b => f item = Returns b) items bs.
Proof.
  induction 1 as [|item items [b Hb] _ (bs & Hbs & Hall)].
  - exists []. split; [reflexivity | constructor].
  - exists (b :: bs). simpl. rewrite Hb. simpl. rewrite Hbs.
    split; [reflexivity | now constructor].
Qed.

Lemma keyword_nonempty (key rest : string) : keyword key ++ rest <> EmptyString.
Proof. discriminate. Qed.

(** ** The printer's methods *)

Section PluginFacts.

Context {lib : GraphQLJS}.
Variable this : HTMLDocumentSchemaPlugin.

Lemma value_returns (v : JSValue) (type : TypeReference) :
  literal_ok v type -> exists text, value v type = Returns text.
Proof.
  intros (node & text & Hnode & Htext). unfold value.
  rewrite Hnode. simpl. rewrite Htext. simpl. eauto.
Qed.

Lemma inputValue_returns (arg : GraphQLArgument) :
  arg_ok arg -> exists text, inputValue this arg = Returns text.
Proof.
  unfold arg_ok, inputValue. destruct (arg_defaultValue arg) as [v|]; intros H.
  - cbn [isNullish]. destruct (value_returns _ _ H) as [text ->]. simpl. eauto.
  - simpl. eauto.
Qed.

Lemma args_returns (argList : list GraphQLArgument) :
  Forall arg_ok argList -> exists text, args this argList = Returns text.
Proof.
  intros H. unfold args. destruct argList as [|arg argList]; [eauto|].
  destruct (mapM_returns (inputValue this) (arg :: argList)) as (printed & -> & _).
  - eapply Forall_impl; [|exact H]. apply inputValue_returns.
  - simpl. eauto.
Qed.

Lemma deprecated_returns (deprecationReason : option string) :
  reason_ok deprecationReason -> exists text, deprecated deprecationReason = Returns text.
Proof.
  unfold reason_ok, deprecated.
  destruct deprecationReason as [reason|]; [|intros _; eexists; reflexivity].
  intros H. cbn [isNullish]. cbv iota.
  destruct ((reason =? EmptyString) || (reason =? DEFAULT_DEPRECATION_REASON)); [eauto|].
  destruct (value_returns _ _ H) as [text ->]. simpl. eauto.
Qed.

Lemma field_returns (f : GraphQLField) :
  field_ok f -> exists text, field this f = Returns text.
Proof.
  intros [Hargs Hreason]. unfold field.
  destruct (args_returns _ Hargs) as [printedArgs ->].
  destruct (deprecated_returns _ Hreason) as [marker ->]. simpl. eauto.
Qed.

Lemma fields_returns (fieldList : list GraphQLField) :
  Forall field_ok fieldList -> exists text, fields this fieldList = Returns text.
Proof.
  intros H. unfold fields.
  destruct (mapM_returns (field this) fieldList) as (printed & -> & _).
  - eapply Forall_impl; [|exact H]. apply field_returns.
  - simpl. eauto.
Qed.

Lemma directive_returns (d : GraphQLDirective) :
  directive_ok d -> exists text, directive this d = Returns text.
Proof.
  intros H. unfold directive.
  destruct (args_returns _ H) as [printedArgs ->]. simpl. eauto.
Qed.

(** A named type whose literals are well formed is printed as a string that
    is not empty. *)
Lemma type_returns (t : GraphQLNamedType) :
  type_ok t ->
  exists text, type this (NamedType t) = Returns (Some text) /\ text <> EmptyString.
Proof.
  destruct t as [name | name ifaces fieldList | name fieldList | name members
                | name values | name fieldList]; simpl type; intros H.
  - exists (scalar name). split; [reflexivity | apply keyword_nonempty].
  - unfold object. destruct (fields_returns _ H) as [printed ->]. cbn [bind].
    eexists. split; [reflexivity | apply keyword_nonempty].
  - unfold interfaces. destruct (fields_returns _ H) as [printed ->]. cbn [bind].
    eexists. split; [reflexivity | apply keyword_nonempty].
  - exists (union this name members). split; [reflexivity | apply keyword_nonempty].
  - unfold enum.
    match goal with |- context [mapM ?f values] =>
      destruct (mapM_returns f values) as (printed & -> & _) end.
    + eapply Forall_impl; [|exact H]. intros v Hv.
      destruct (deprecated_returns _ Hv) as [marker ->]. simpl. eauto.
    + cbn [bind]. eexists. split; [reflexivity | apply keyword_nonempty].
  - unfold inputObject.
    match goal with |- context [mapM ?f fieldList] =>
      destruct (mapM_returns f fieldList) as (printed & -> & _) end.
    + eapply Forall_impl; [|exact H]. intros f Hf.
      destruct (inputValue_returns _ Hf) as [line ->]. simpl. eauto.
    + cbn [bind]. eexists. split; [reflexivity | apply keyword_nonempty].
Qed.

(** [type] answers [null] on the wrappers only. *)
Lemma type_null_iff (t : GraphQLType) :
  type this t = Returns None <-> (forall named, t <> NamedType named).
Proof.
  split.
  - intros H named ->. revert H.
    destruct named; simpl; try discriminate;
      match goal with |- context [bind ?m _] => destruct m; discriminate end.
  - intros H. destruct t as [named | |]; [now elim (H named) | reflexivity | reflexivity].
Qed.

End PluginFacts.

Section PluginClaims.

Context {lib : GraphQLJS}.
Variable this : HTMLDocumentSchemaPlugin.

(** C4: the deprecation marker is the empty string when the reason is
    absent; the keyword [@deprecated] after one space, and nothing else, when
    the reason is the empty string or the default reason; and for any other
    reason the keyword followed by the parenthesised [reason] parameter,
    whose value is the reason printed as a literal of type [String]. *)
Theorem deprecated_marker (reason : string) :
  deprecated None = Returns EmptyString
  /\ (reason = EmptyString \/ reason = DEFAULT_DEPRECATION_REASON ->
      deprecated (Some reason) = Returns (" " ++ keyword "@deprecated"))
  /\ (reason <> EmptyString -> reason <> DEFAULT_DEPRECATION_REASON ->
      forall node literal,
        astFromValue (JSString reason) GraphQLString = Returns node ->
        print node = Returns literal ->
        deprecated (Some reason)
        = Returns (" " ++ keyword "@deprecated"
                   ++ "(" ++ parameter "reason" ++ ": " ++ val (val literal) ++ ")")).
Proof.
  split; [reflexivity | split].
  - intros H. unfold deprecated.
    replace ((reason =? EmptyString) || (reason =? DEFAULT_DEPRECATION_REASON))
      with true; [reflexivity|].
    symmetry. apply orb_true_iff. rewrite !String.eqb_eq. exact H.
  - intros Hempty Hdefault node literal Hnode Hliteral. unfold deprecated, value.
    apply String.eqb_neq in Hempty, Hdefault. rewrite Hempty, Hdefault.
    cbn [orb]. rewrite Hnode. cbn [bind]. rewrite Hliteral. reflexivity.
Qed.

(** C9: [type] returns [null] exactly on an input outside the six classes of
    named types, on which [getSections] returns [null] and throws nothing;
    and on a named type, whose literals are well formed, [type] returns a
    string that is not empty. *)
Theorem type_null_exactly_outside (t : GraphQLType) :
  (type this t = Returns None <-> forall named, t <> NamedType named)
  /\ ((forall named, t <> NamedType named) ->
      getSections this (inl t) = Returns None)
  /\ (forall named, t = NamedType named -> type_ok named ->
      exists text, type this t = Returns (Some text) /\ text <> EmptyString).
Proof.
  split; [apply type_null_iff | split].
  - intros H. apply (type_null_iff this) in H. unfold getSections. now rewrite H.
  - intros named -> H. now apply type_returns.
Qed.

End PluginClaims.

(** C10: a section that [getSections] returns carries the title given to the
    constructor, and its description is the printed definition between
    [<pre class="code">] and [</pre>]. *)
Theorem getSections_section {lib : GraphQLJS} (given : string)
  (url : TypeReference -> string) (type_or_schema : GraphQLType + GraphQLSchema)
  (section : DocumentSection) :
  getSections (constructor given url) type_or_schema = Returns (Some section) ->
  title section = given
  /\ exists definition,
       match type_or_schema with
       | inl t => type (constructor given url) t = Returns (Some definition)
       | inr s => schema (constructor given url) s = Returns definition
       end
       /\ description section
          = "<pre class=" ++ dq ++ "code" ++ dq ++ ">" ++ definition ++ "</pre>".
Proof.
  unfold getSections. intros H.
  assert (Hfinal : forall definition,
             (if JS.truthy definition
              then Returns (Some {| title := this_title (constructor given url);
                                    description := "<pre class=" ++ dq ++ "code" ++ dq ++ ">"
                                                   ++ definition ++ "</pre>" |})
              else Returns None) = Returns (Some section) ->
             title section = given
             /\ description section
                = "<pre class=" ++ dq ++ "code" ++ dq ++ ">" ++ definition ++ "</pre>").
  { intros definition E. destruct (JS.truthy definition); [|discriminate].
    injection E as <-. split; reflexivity. }
  destruct type_or_schema as [t | s].
  - destruct (type (constructor given url) t) as [[definition|]|]; try discriminate.
    destruct (Hfinal _ H). eauto.
  - destruct (schema (constructor given url) s) as [definition|]; try discriminate.
    destruct (Hfinal _ H). eauto.
Qed.

(** ** How a printed block ends *)

Lemma last_char_app (a b : string) :
  b <> EmptyString -> last_char (a ++ b) = last_char b.
Proof.
  intros Hb. induction a as [|x a IH]; [reflexivity|].
  simpl. rewrite IH. destruct (a ++ b) eqn:E; [|reflexivity].
  destruct a; [simpl in E; congruence | discriminate].
Qed.

Lemma ends_in_text_app (a b : string) : ends_in_text b -> ends_in_text (a ++ b).
Proof.
  intros (c & Hc & Hnl). exists c. split; [|exact Hnl].
  rewrite last_char_app; [exact Hc | now destruct b].
Qed.

Lemma ends_in_text_not_nl (body : string) : ~ ends_in_text (body ++ nl).
Proof.
  intros (c & Hc & Hnl). rewrite last_char_app in Hc by discriminate.
  injection Hc as <-. now apply Hnl.
Qed.

Lemma string_app_inv_tail (a b c : string) : a ++ c = b ++ c -> a = b.
Proof.
  revert b. induction a as [|x a IH]; intros [|y b] H.
  - reflexivity.
  - exfalso. apply (f_equal String.length) in H.
    simpl in H. rewrite string_length_app in H. lia.
  - exfalso. apply (f_equal String.length) in H.
    simpl in H. rewrite string_length_app in H. lia.
  - simpl in H. injection H as -> H. now rewrite (IH b H).
Qed.

(** A text that ends in text, followed by one line feed, ends with a single
    line feed. *)
Lemma single_trailing_newline (text : string) :
  ends_in_text text ->
  ends_with nl (text ++ nl) /\ ~ ends_with (nl ++ nl) (text ++ nl).
Proof.
  intros Htext. split.
  - now exists text.
  - intros [body Hbody]. rewrite <- string_app_assoc in Hbody.
    apply string_app_inv_tail in Hbody. subst text.
    now apply ends_in_text_not_nl in Htext.
Qed.

(** A joined list ends as its last item does. *)
Lemma join_ends_in_text (sep : string) (items : list string) :
  items <> [] -> Forall ends_in_text items -> ends_in_text (JS.join sep items).
Proof.
  intros Hne Hall. induction Hall as [|x items Hx Hitems IH]; [congruence|].
  destruct items as [|y items].
  - exact Hx.
  - rewrite join_cons by discriminate.
    apply ends_in_text_app, ends_in_text_app, IH. discriminate.
Qed.

Lemma ends_in_text_brace (before : string) : ends_in_text (before ++ "}").
Proof.
  apply ends_in_text_app. exists "}"%char. split; [reflexivity | discriminate].
Qed.

Lemma keyword_ends_in_text (key : string) : ends_in_text (keyword key).
Proof.
  unfold keyword. repeat apply ends_in_text_app.
  exists ">"%char. split; [reflexivity | discriminate].
Qed.

Lemma useIdentifier_named_ends_in_text (t : NamedRef) (url : string) :
  ends_in_text (useIdentifier (Named t) url).
Proof.
  unfold useIdentifier. cbn [useIdentifier_loop]. cbv beta iota zeta.
  change (JS.truthy EmptyString) with false. cbv iota.
  rewrite string_app_nil_r. repeat apply ends_in_text_app.
  exists ">"%char. split; [reflexivity | discriminate].
Qed.

(** A list joined after a separator that ends in a space. *)
Lemma join_after_space (before sep : string) (items : list string) :
  Forall ends_in_text items ->
  ends_in_text (before ++ " " ++ JS.join sep items).
Proof.
  intros Hall. destruct items as [|x items].
  - simpl. apply ends_in_text_app.
    exists " "%char. split; [reflexivity | discriminate].
  - apply ends_in_text_app, ends_in_text_app, join_ends_in_text;
      [discriminate | exact Hall].
Qed.

(** ** The whole schema *)

Lemma Returns_inj {A : Type} (a b : A) : Returns a = Returns b -> a = b.
Proof. now intros [= ->]. Qed.

Lemma Returns_Some_inj {A : Type} (a b : A) : Returns (Some a) = Returns (Some b) -> a = b.
Proof. now intros [= ->]. Qed.

Lemma mapM_map {A B C : Type} (f : B -> Outcome C) (g : A -> B) (items : list A) :
  mapM f (map g items) = mapM (fun item => f (g item)) items.
Proof.
  induction items as [|item items IH]; simpl; [reflexivity | now rewrite IH].
Qed.

Lemma mapM_some {A B : Type} (f : A -> Outcome (option B)) (items : list A) :
  Forall (fun item => exists b, f item = Returns (Some b)) items ->
  exists bs, mapM f items = Returns (map Some bs)
             /\ Forall2 (fun item b => f item = Returns (Some b)) items bs.
Proof.
  induction 1 as [|item items [b Hb] _ (bs & Hbs & Hall)].
  - exists []. split; [reflexivity | constructor].
  - exists (b :: bs). simpl. rewrite Hb. simpl. rewrite Hbs.
    split; [reflexivity | now constructor].
Qed.

Lemma join_nullable_some (sep : string) (items : list string) :
  JS.join_nullable sep (map Some items) = JS.join sep items.
Proof.
  unfold JS.join_nullable. rewrite map_map, map_id. reflexivity.
Qed.

Section SchemaFacts.

Context {lib : GraphQLJS}.
Variable this : HTMLDocumentSchemaPlugin.

Lemma sort_insert_perm (name : string) (sorted : list string) :
  Permutation (sort_insert name sorted) (name :: sorted).
Proof.
  induction sorted as [|name2 rest IH]; simpl; [reflexivity|].
  destruct (localeCompare name name2 <=? 0)%Z; [reflexivity|].
  rewrite IH. apply perm_swap.
Qed.

Lemma sort_perm (names : list string) : Permutation (sort names) names.
Proof.
  induction names as [|name names IH]; simpl; [reflexivity|].
  rewrite sort_insert_perm. now constructor.
Qed.

Lemma sort_insert_sorted (name : string) (sorted : list string) :
  consistent_comparison ->
  StronglySorted in_order sorted -> StronglySorted in_order (sort_insert name sorted).
Proof.
  intros [Htotal Htrans]. induction 1 as [|name2 rest Hrest IH Hall]; simpl.
  - repeat constructor.
  - destruct (localeCompare name name2 <=? 0)%Z eqn:Hcmp.
    + apply Z.leb_le in Hcmp. constructor; [now constructor|].
      constructor; [exact Hcmp|].
      eapply Forall_impl; [|exact Hall]. intros c Hc. exact (Htrans _ _ _ Hcmp Hc).
    + apply Z.leb_gt in Hcmp. constructor; [exact IH|].
      eapply Permutation_Forall; [symmetry; apply sort_insert_perm|].
      constructor; [now apply Htotal | exact Hall].
Qed.

Lemma sort_sorted (names : list string) :
  consistent_comparison -> StronglySorted in_order (sort names).
Proof.
  intros H. induction names as [|name names IH]; simpl; [constructor|].
  now apply sort_insert_sorted.
Qed.

Lemma lookup_key (typeMap : list (string * GraphQLNamedType)) (typename : string) :
  In typename (keys typeMap) -> exists t, lookup typeMap typename = Some t.
Proof.
  induction typeMap as [|[key t] typeMap IH]; simpl; [contradiction|].
  intros [-> | Hin].
  - rewrite String.eqb_refl. eauto.
  - destruct (key =? typename); eauto.
Qed.

Lemma lookup_In (typeMap : list (string * GraphQLNamedType)) (typename : string)
  (t : GraphQLNamedType) :
  lookup typeMap typename = Some t -> In (typename, t) typeMap.
Proof.
  induction typeMap as [|[key t'] typeMap IH]; simpl; [discriminate|].
  destruct (key =? typename) eqn:Hkey.
  - apply String.eqb_eq in Hkey. intros [= ->]. left. now subst.
  - intros H. right. now apply IH.
Qed.

Lemma schemaDefinition_shape (s : GraphQLSchema) :
  schemaDefinition this s
  = keyword "schema" ++ " {" ++ nl
    ++ JS.join nl (map (operation_line this) (root_operations s)) ++ nl ++ "}".
Proof.
  unfold schemaDefinition, root_operations, operation_line.
  destruct (getQueryType s), (getMutationType s), (getSubscriptionType s); reflexivity.
Qed.

Lemma schemaDefinition_ends_in_text (s : GraphQLSchema) :
  ends_in_text (schemaDefinition this s).
Proof.
  unfold schemaDefinition. cbv zeta.
  repeat (apply ends_in_text_app).
  exists "}"%char. split; [reflexivity | discriminate].
Qed.

Lemma directive_ends_in_text (d : GraphQLDirective) (text : string) :
  directive this d = Returns text -> ends_in_text text.
Proof.
  unfold directive. destruct (args this (directive_args d)) as [printedArgs|];
    [|discriminate].
  cbn [bind]. intros H. apply Returns_inj in H. subst text.
  rewrite <- !string_app_assoc.
  change " on " with (" on" ++ " "). rewrite <- !string_app_assoc.
  rewrite string_app_assoc.
  apply join_after_space.
  apply Forall_forall. intros x Hx. apply in_map_iff in Hx as (location & <- & _).
  apply keyword_ends_in_text.
Qed.

Lemma type_ends_in_text (t : GraphQLNamedType) (text : string) :
  type this (NamedType t) = Returns (Some text) -> ends_in_text text.
Proof.
  destruct t as [name | name ifaces fieldList | name fieldList | name members
                | name values | name fieldList]; cbn [type].
  - intros H. apply Returns_Some_inj in H. subst text. unfold scalar, identifier.
    repeat apply ends_in_text_app. exists ">"%char. split; [reflexivity | discriminate].
  - unfold object. destruct (fields this fieldList); [|discriminate].
    cbn [bind]. intros H. apply Returns_Some_inj in H. subst text. rewrite <- !string_app_assoc. apply ends_in_text_brace.
  - unfold interfaces. destruct (fields this fieldList); [|discriminate].
    cbn [bind]. intros H. apply Returns_Some_inj in H. subst text. rewrite <- !string_app_assoc. apply ends_in_text_brace.
  - intros H. apply Returns_Some_inj in H. subst text. unfold union.
    rewrite <- !string_app_assoc.
    change " = " with (" =" ++ " "). rewrite <- !string_app_assoc.
    rewrite string_app_assoc.
    apply join_after_space.
    apply Forall_forall. intros x Hx. apply in_map_iff in Hx as (member & <- & _).
    apply useIdentifier_named_ends_in_text.
  - unfold enum.
    match goal with |- context [mapM ?f values] => destruct (mapM f values) end;
      [|discriminate].
    cbn [bind]. intros H. apply Returns_Some_inj in H. subst text. rewrite <- !string_app_assoc. apply ends_in_text_brace.
  - unfold inputObject.
    match goal with |- context [mapM ?f fieldList] => destruct (mapM f fieldList) end;
      [|discriminate].
    cbn [bind]. intros H. apply Returns_Some_inj in H. subst text. rewrite <- !string_app_assoc. apply ends_in_text_brace.
Qed.

End SchemaFacts.

(** C6: for a schema whose literals are well formed, and a comparison that
    orders the names, the whole schema is printed as blocks joined by blank
    lines and followed by one line feed: first the schema definition, whose
    lines are the root operation types that are present, in the order query,
    mutation, subscription; then one block per directive that is not one of
    the three reserved ones, in their order; then one block per defined
    type, the type names being those the filter lets through, sorted by the
    comparison.  The result ends with a single line feed. *)
Theorem schema_layout {lib : GraphQLJS} (this : HTMLDocumentSchemaPlugin)
  (s : GraphQLSchema) :
  consistent_comparison ->
  schema_ok s ->
  exists printedDirectives printedTypes : list string,
    schema this s
    = Returns (JS.join (nl ++ nl)
                 (schemaDefinition this s :: printedDirectives ++ printedTypes)%list
               ++ nl)
    /\ schemaDefinition this s
       = keyword "schema" ++ " {" ++ nl
         ++ JS.join nl (map (operation_line this) (root_operations s)) ++ nl ++ "}"
    /\ Forall2 (fun d text => directive this d = Returns text)
               (filter (fun d => negb (isSpecDirective (directive_name d)))
                       (getDirectives s))
               printedDirectives
    /\ Forall2 (fun typename text =>
                  exists t, lookup (getTypeMap s) typename = Some t
                            /\ type this (NamedType t) = Returns (Some text))
               (filteredSchema_typeNames s isDefinedType)
               printedTypes
    /\ Permutation (filteredSchema_typeNames s isDefinedType)
                   (filter isDefinedType (keys (getTypeMap s)))
    /\ StronglySorted in_order (filteredSchema_typeNames s isDefinedType)
    /\ (forall out, schema this s = Returns out ->
                    ends_with nl out /\ ~ ends_with (nl ++ nl) out).
Proof.
  intros Hcmp [Hdirectives Htypes].
  set (names := filteredSchema_typeNames s isDefinedType).
  assert (Hperm : Permutation names (filter isDefinedType (keys (getTypeMap s))))
    by apply sort_perm.
  (* the directives *)
  destruct (mapM_returns (directive this)
              (filteredSchema_directives s (fun n => negb (isSpecDirective n))))
    as (ds & Hds & Hds2).
  { apply Forall_forall. intros d Hd. apply filter_In in Hd as [Hd Hkeep].
    apply directive_returns, Hdirectives; [exact Hd|].
    now apply negb_true_iff. }
  (* the types *)
  assert (Hentry : Forall (fun typename =>
                             exists text,
                               type_of_entry this (lookup (getTypeMap s) typename)
                               = Returns (Some text)) names).
  { apply Forall_forall. intros typename Hin.
    apply (Permutation_in _ Hperm), filter_In in Hin as [Hkey Hdefined].
    destruct (lookup_key _ _ Hkey) as [t Ht]. rewrite Ht.
    destruct (type_returns this t (Htypes _ _ Ht Hdefined)) as (text & Htext & _).
    eauto. }
  destruct (mapM_some _ _ Hentry) as (ts & Hts & Hts2).
  assert (Hschema : schema this s
                    = Returns (JS.join (nl ++ nl) (schemaDefinition this s :: ds ++ ts)%list
                               ++ nl)).
  { unfold schema, filteredSchema, filteredSchema_types.
    rewrite Hds. cbn [bind]. rewrite mapM_map. fold names. rewrite Hts. cbn [bind].
    rewrite <- map_app.
    change (([Some (schemaDefinition this s)] ++ map Some (ds ++ ts))%list)
      with (map Some (schemaDefinition this s :: ds ++ ts)%list).
    now rewrite join_nullable_some. }
  assert (Hts3 : Forall2 (fun typename text =>
                            exists t, lookup (getTypeMap s) typename = Some t
                                      /\ type this (NamedType t) = Returns (Some text))
                         names ts).
  { eapply Forall2_impl; [|exact Hts2]. intros typename text Htext. cbv beta in Htext.
    destruct (lookup (getTypeMap s) typename) as [t|]; [eauto | discriminate Htext]. }
  exists ds, ts.
  split; [exact Hschema|].
  split; [apply schemaDefinition_shape|].
  split; [exact Hds2|].
  split; [exact Hts3|].
  split; [exact Hperm|].
  split; [now apply sort_sorted|].
  intros out Hout. rewrite Hschema in Hout. apply Returns_inj in Hout. subst out.
  apply single_trailing_newline, join_ends_in_text; [discriminate|].
  constructor; [apply schemaDefinition_ends_in_text|].
  apply Forall_app. split.
  - clear -Hds2. induction Hds2 as [|d text ? ? Hd _ IH]; constructor;
      [now apply (directive_ends_in_text this d) | exact IH].
  - clear -Hts3. induction Hts3 as [|n text ? ? (t & _ & Ht) _ IH]; constructor;
      [now apply (type_ends_in_text this t) | exact IH].
Qed.

(** The blocks of a printed schema: the printed directives that the
    directive filter of [schema] lets through and the printed types under the
    names that its type filter lets through. *)
Lemma schema_blocks {lib : GraphQLJS} (this : HTMLDocumentSchemaPlugin)
  (s : GraphQLSchema) :
  schema_ok s ->
  exists printedDirectives printedTypes : list string,
    schema this s
    = Returns (JS.join (nl ++ nl)
                 (schemaDefinition this s :: printedDirectives ++ printedTypes)%list
               ++ nl)
    /\ Forall2 (fun d text => directive this d = Returns text)
               (filteredSchema_directives s (fun n => negb (isSpecDirective n)))
               printedDirectives
    /\ Forall2 (fun typename text =>
                  exists t, lookup (getTypeMap s) typename = Some t
                            /\ type this (NamedType t) = Returns (Some text))
               (filteredSchema_typeNames s isDefinedType)
               printedTypes.
Proof.
  intros [Hdirectives Htypes].
  set (names := filteredSchema_typeNames s isDefinedType).
  destruct (mapM_returns (directive this)
              (filteredSchema_directives s (fun n => negb (isSpecDirective n))))
    as (ds & Hds & Hds2).
  { apply Forall_forall. intros d Hd. apply filter_In in Hd as [Hd Hkeep].
    apply directive_returns, Hdirectives; [exact Hd | now apply negb_true_iff]. }
  assert (Hentry : Forall (fun typename =>
                             exists text,
                               type_of_entry this (lookup (getTypeMap s) typename)
                               = Returns (Some text)) names).
  { apply Forall_forall. intros typename Hin.
    apply (Permutation_in _ (sort_perm _)), filter_In in Hin as [Hkey Hdefined].
    destruct (lookup_key _ _ Hkey) as [t Ht]. rewrite Ht.
    destruct (type_returns this t (Htypes _ _ Ht Hdefined)) as (text & Htext & _).
    eauto. }
  destruct (mapM_some _ _ Hentry) as (ts & Hts & Hts2).
  exists ds, ts. split; [|split; [exact Hds2|]].
  - unfold schema, filteredSchema, filteredSchema_types.
    rewrite Hds. cbn [bind]. rewrite mapM_map. fold names. rewrite Hts. cbn [bind].
    rewrite <- map_app.
    change (([Some (schemaDefinition this s)] ++ map Some (ds ++ ts))%list)
      with (map Some (schemaDefinition this s :: ds ++ ts)%list).
    now rewrite join_nullable_some.
  - eapply Forall2_impl; [|exact Hts2]. intros typename text Htext. cbv beta in Htext.
    destruct (lookup (getTypeMap s) typename) as [t|]; [eauto | discriminate Htext].
Qed.

(** C5: for a schema whose literals are well formed, the blocks that
    [schema] prints after the schema definition and the directives are the
    printed types of the type map under a list of names, and that list holds
    a name exactly when it is a key of the type map that neither begins with
    two underscores nor is one of [String], [Boolean], [Int], [Float] and
    [ID]; it repeats no name when the type map does not. *)
Theorem schema_type_listing {lib : GraphQLJS} (this : HTMLDocumentSchemaPlugin)
  (s : GraphQLSchema) :
  schema_ok s ->
  exists printedDirectives typeNames printedTypes : list string,
    schema this s
    = Returns (JS.join (nl ++ nl)
                 (schemaDefinition this s :: printedDirectives ++ printedTypes)%list
               ++ nl)
    /\ Forall2 (fun d text => directive this d = Returns text)
               (filter (fun d => negb (isSpecDirective (directive_name d)))
                       (getDirectives s))
               printedDirectives
    /\ Forall2 (fun typename text =>
                  exists t, lookup (getTypeMap s) typename = Some t
                            /\ type this (NamedType t) = Returns (Some text))
               typeNames printedTypes
    /\ (forall typename,
          In typename typeNames
          <-> In typename (keys (getTypeMap s))
              /\ String.prefix "__" typename = false
              /\ ~ In typename ["String"; "Boolean"; "Int"; "Float"; "ID"])
    /\ (NoDup (keys (getTypeMap s)) -> NoDup typeNames).
Proof.
  intros Hok.
  destruct (schema_blocks this s Hok) as (ds & ts & Hschema & Hds & Hts).
  exists ds, (filteredSchema_typeNames s isDefinedType), ts.
  split; [exact Hschema|]. split; [exact Hds|]. split; [exact Hts|].
  unfold filteredSchema_typeNames. split.
  - intros typename. rewrite <- isDefinedType_spec, <- filter_In.
    split; apply Permutation_in; [|symmetry]; apply sort_perm.
  - intros Hnodup.
    apply (Permutation_NoDup (Permutation_sym (sort_perm _))).
    now apply NoDup_filter.
Qed.

(** ** The statements on the sample schema *)

Example split_ws_inner : JS.split_ws "a  b" = ["a"; "b"].
Proof. reflexivity. Qed.

Example split_ws_outer : JS.split_ws " a " = [EmptyString; "a"; EmptyString].
Proof. reflexivity. Qed.

Example split_ws_empty : JS.split_ws EmptyString = [EmptyString].
Proof. reflexivity. Qed.

Example breakText_two_lines : breakText "aa bb cc" 4 = ["aa bb"; "cc"].
Proof. reflexivity. Qed.

Example breakText_trailing_space : breakText "a " 5 = ["a "].
Proof. reflexivity. Qed.

Example sample_type_names :
  filteredSchema_typeNames sample_schema isDefinedType = ["Pet"; "Widget"].
Proof. reflexivity. Qed.

Lemma sample_comparison_consistent : @consistent_comparison sample_lib.
Proof.
  split.
  - intros a b. simpl. rewrite (String.compare_antisym b a).
    destruct (String.compare a b); simpl; lia.
  - intros a b c. simpl.
    destruct (String.compare a b) eqn:Hab; [| |lia].
    + apply String.compare_eq_iff in Hab. subst b. tauto.
    + destruct (String.compare b c) eqn:Hbc; [| |lia].
      * apply String.compare_eq_iff in Hbc. subst c. rewrite Hab. lia.
      * assert (Hac : String.compare a c = Lt).
        { apply String_as_OT.cmp_lt.
          eapply String_as_OT.lt_trans; apply String_as_OT.cmp_lt; eassumption. }
        rewrite Hac. lia.
Qed.

Lemma sample_schema_ok : schema_ok sample_schema.
Proof.
  split.
  - intros d [<- | [<- | []]] _; constructor.
  - intros typename t Hlookup _. apply lookup_In in Hlookup.
    destruct Hlookup as [[= <- <-] | [[= <- <-] | [[= <- <-] | [[= <- <-] | []]]]];
      simpl; repeat constructor; do 2 eexists; split; reflexivity.
Qed.

Lemma deprecated_marker_witness :
  deprecated (lib := sample_lib) (Some "use X instead")
  = Returns (" " ++ keyword "@deprecated"
             ++ "(" ++ parameter "reason" ++ ": "
             ++ val (val (dq ++ "use X instead" ++ dq)) ++ ")").
Proof.
  apply (proj2 (proj2 (@deprecated_marker sample_lib "use X instead")))
    with (node := "use X instead");
    [discriminate | discriminate | reflexivity | reflexivity].
Defined.

Lemma type_null_exactly_outside_witness :
  type_ok sample_filter
  /\ exists text,
       type sample_plugin (NamedType sample_filter) = Returns (Some text)
       /\ text <> EmptyString.
Proof.
  assert (Hok : type_ok sample_filter).
  { repeat constructor. do 2 eexists. split; reflexivity. }
  split; [exact Hok|].
  exact (proj2 (proj2 (type_null_exactly_outside sample_plugin (NamedType sample_filter)))
           sample_filter eq_refl Hok).
Defined.

Lemma getSections_section_witness :
  getSections (lib := sample_lib) (constructor "Schema" (fun _ => "#"))
    (inl (NamedType (GraphQLScalarType "Date")))
  = Returns (Some sample_section)
  /\ title sample_section = "Schema"
  /\ exists definition,
       type (lib := sample_lib) (constructor "Schema" (fun _ => "#"))
         (NamedType (GraphQLScalarType "Date"))
       = Returns (Some definition)
       /\ description sample_section
          = "<pre class=" ++ dq ++ "code" ++ dq ++ ">" ++ definition ++ "</pre>".
Proof.
  split; [reflexivity|].
  apply (@getSections_section sample_lib "Schema" (fun _ => "#")
           (inl (NamedType (GraphQLScalarType "Date"))) sample_section).
  reflexivity.
Defined.

Lemma schema_layout_witness :
  @consistent_comparison sample_lib
  /\ schema_ok sample_schema
  /\ exists out,
       schema sample_plugin sample_schema = Returns out
       /\ ends_with nl out /\ ~ ends_with (nl ++ nl) out.
Proof.
  split; [exact sample_comparison_consistent|].
  split; [exact sample_schema_ok|].
  destruct (schema_layout sample_plugin sample_schema
              sample_comparison_consistent sample_schema_ok)
    as (ds & ts & Hschema & _ & _ & _ & _ & _ & Hend).
  eexists. split; [exact Hschema | exact (Hend _ Hschema)].
Defined.

(** C7 on the code: the union [Pet] of [Cat] and [Dog] is printed with the
    keyword running into the bare name, where the five other classes of
    types put a space and the name as an identifier, as [scalar] does. *)
Lemma union_keyword_runs_into_name :
  union sample_plugin "Pet" [cat; dog]
  = keyword "union" ++ "Pet = "
    ++ useIdentifier (Named cat) "#" ++ " | " ++ useIdentifier (Named dog) "#"
  /\ union sample_plugin "Pet" [cat; dog]
     <> keyword "union" ++ " " ++ "Pet" ++ " = "
        ++ useIdentifier (Named cat) "#" ++ " | " ++ useIdentifier (Named dog) "#"
  /\ union sample_plugin "Pet" [cat; dog]
     <> keyword "union" ++ " " ++ identifier "Pet" ++ " = "
        ++ useIdentifier (Named cat) "#" ++ " | " ++ useIdentifier (Named dog) "#"
  /\ scalar "Pet" = keyword "scalar" ++ " " ++ identifier "Pet".
Proof.
  repeat split; try reflexivity; apply String.eqb_neq; reflexivity.
Qed.

(** * Further properties *)

(** ** The text wrapper at its edges *)

Lemma split_ws_spaces_only (text : string) :
  spaces_only text = true ->
  Forall (fun word => word = EmptyString) (JS.split_ws text).
Proof.
  induction text as [|c rest IH]; simpl.
  - repeat constructor.
  - destruct (JS.isWhiteSpace c); [|discriminate]. simpl. intros H.
    destruct (JS.startsWithSpace rest); [auto | constructor; auto].
Qed.

Lemma split_ws_has_word (text : string) :
  spaces_only text = false ->
  Exists (fun word => word <> EmptyString) (JS.split_ws text).
Proof.
  induction text as [|c rest IH]; simpl; [discriminate|].
  destruct (JS.isWhiteSpace c); simpl.
  - intros H. destruct (JS.startsWithSpace rest); [auto | apply Exists_cons_tl; auto].
  - intros _. destruct (JS.split_ws rest); apply Exists_cons_hd; discriminate.
Qed.

Lemma extend_nonempty (line word : string) :
  line <> EmptyString \/ word <> EmptyString -> extend line word <> EmptyString.
Proof.
  intros H E. apply (f_equal String.length) in E.
  unfold extend in E. rewrite !string_length_app in E. simpl in E.
  destruct H as [H | H]; [destruct line | destruct word]; simpl in E; try lia;
    now apply H.
Qed.

Lemma breakText_loop_empty_words (len : Z) (words lines : list string) :
  (0 <= len)%Z ->
  Forall (fun word => word = EmptyString) words ->
  breakText_loop len words lines EmptyString = lines.
Proof.
  intros Hlen Hwords. revert lines.
  induction Hwords as [|word words -> _ IH]; intros lines; [reflexivity|].
  rewrite breakText_loop_cons. change (extend EmptyString EmptyString) with EmptyString.
  replace (len <? Z.of_nat (String.length EmptyString))%Z with false
    by (symmetry; apply Z.ltb_ge; simpl; lia).
  apply IH.
Qed.

Lemma breakText_loop_some_line (len : Z) (words lines : list string) (line : string) :
  line <> EmptyString \/ Exists (fun word => word <> EmptyString) words ->
  breakText_loop len words lines line <> [].
Proof.
  revert lines line. induction words as [|word words IH]; intros lines line H.
  - destruct H as [H | H]; [|inversion H].
    simpl. destruct line; [contradiction|]. simpl. now destruct lines.
  - rewrite breakText_loop_cons.
    destruct (len <? Z.of_nat (String.length (extend line word)))%Z.
    + rewrite breakText_loop_lines. now destruct lines.
    + apply IH. destruct H as [H | H].
      * left. apply extend_nonempty. now left.
      * inversion H as [? ? Hword | ? ? Hrest]; subst.
        -- left. apply extend_nonempty. now right.
        -- now right.
Qed.

(** X1: at a width that is not negative, the wrapper returns no line exactly
    for a text made of white space only, the empty text included. *)
Theorem breakText_no_line (text : string) (len : Z) :
  (0 <= len)%Z ->
  (breakText text len = [] <-> spaces_only text = true).
Proof.
  intros Hlen. unfold breakText. split.
  - intros H. destruct (spaces_only text) eqn:E; [reflexivity|].
    exfalso. revert H. apply breakText_loop_some_line. right.
    now apply split_ws_has_word.
  - intros H. apply breakText_loop_empty_words; [exact Hlen|].
    now apply split_ws_spaces_only.
Qed.

Lemma breakText_no_line_witness :
  breakText "   " 50 = [] <-> spaces_only "   " = true.
Proof. apply (breakText_no_line "   " 50). lia. Defined.

Lemma breakText_loop_negative (len : Z) (words lines : list string) :
  (len < 0)%Z ->
  breakText_loop len words lines EmptyString = (lines ++ words)%list.
Proof.
  intros Hlen. revert lines. induction words as [|word words IH]; intros lines.
  - simpl. now rewrite app_nil_r.
  - rewrite breakText_loop_cons. change (extend EmptyString word) with word.
    replace (len <? Z.of_nat (String.length word))%Z with true
      by (symmetry; apply Z.ltb_lt; lia).
    rewrite IH, <- app_assoc. reflexivity.
Qed.

Lemma breakText_loop_zero (words lines : list string) :
  breakText_loop 0 words lines EmptyString = (lines ++ filter nonempty words)%list.
Proof.
  revert lines. induction words as [|word words IH]; intros lines.
  - simpl. now rewrite app_nil_r.
  - rewrite breakText_loop_cons. change (extend EmptyString word) with word.
    destruct word as [|c word].
    + simpl. apply IH.
    + change (0 <? Z.of_nat (String.length (String c word)))%Z with true.
      cbv iota. rewrite IH, <- app_assoc. reflexivity.
Qed.

(** X2: at width 0 every word is a line of its own, and at a negative width
    every piece that [split] returns is, the empty ones included. *)
Theorem breakText_narrow (text : string) (len : Z) :
  (len <= 0)%Z ->
  breakText text len
  = if (len <? 0)%Z then JS.split_ws text else filter nonempty (JS.split_ws text).
Proof.
  intros Hlen. unfold breakText. destruct (len <? 0)%Z eqn:E.
  - apply Z.ltb_lt in E. now rewrite breakText_loop_negative.
  - apply Z.ltb_ge in E. replace len with 0%Z by lia. now rewrite breakText_loop_zero.
Qed.

Lemma breakText_narrow_witness :
  breakText " a  bb " 0 = ["a"; "bb"]
  /\ breakText " a  bb " (-1) = [EmptyString; "a"; "bb"; EmptyString].
Proof.
  split.
  - apply (breakText_narrow " a  bb " 0). lia.
  - apply (breakText_narrow " a  bb " (-1)). lia.
Defined.

Lemma spaceless_start (word : string) :
  spaceless word = true -> JS.startsWithSpace word = false.
Proof.
  destruct word as [|c word]; [reflexivity|]. simpl.
  now destruct (JS.isWhiteSpace c).
Qed.

Lemma extend_start (line word : string) :
  JS.startsWithSpace line = false -> spaceless word = true ->
  JS.startsWithSpace (extend line word) = false.
Proof.
  intros Hline Hword. destruct line as [|c line].
  - now apply spaceless_start.
  - exact Hline.
Qed.

Lemma breakText_loop_starts (len : Z) (words : list string) (line : string) :
  (0 <= len)%Z ->
  Forall (fun word => spaceless word = true) words ->
  JS.startsWithSpace line = false ->
  Forall (fun l => l <> EmptyString /\ JS.startsWithSpace l = false)
         (breakText_loop len words [] line).
Proof.
  intros Hlen Hwords. revert line.
  induction Hwords as [|word words Hword _ IH]; intros line Hline.
  - simpl. destruct line; repeat constructor; [discriminate | exact Hline].
  - pose proof (extend_start line word Hline Hword) as Hnew.
    rewrite breakText_loop_cons.
    destruct (len <? Z.of_nat (String.length (extend line word)))%Z eqn:Hflush.
    + rewrite breakText_loop_lines. constructor; [|now apply IH].
      split; [|exact Hnew]. apply Z.ltb_lt in Hflush.
      intros E. rewrite E in Hflush. simpl in Hflush. lia.
    + now apply IH.
Qed.

(** X3: at a width that is not negative, no produced line is empty and none
    starts with white space. *)
Theorem breakText_lines_start (text : string) (len : Z) :
  (0 <= len)%Z ->
  Forall (fun line => line <> EmptyString /\ JS.startsWithSpace line = false)
         (breakText text len).
Proof.
  intros Hlen. apply breakText_loop_starts;
    [exact Hlen | apply split_ws_spaceless | reflexivity].
Qed.

Lemma breakText_lines_start_witness :
  Forall (fun line => line <> EmptyString /\ JS.startsWithSpace line = false)
         (breakText "  aa   bb cc " 4).
Proof. apply (breakText_lines_start "  aa   bb cc " 4). lia. Defined.

(** ** The lines of any text *)

Lemma split_ws_trailing (text : string) :
  JS.endsWithSpace text = true ->
  exists first words,
    JS.split_ws text = first :: (words ++ [EmptyString])%list
    /\ Forall (fun w => nonempty w = true) words.
Proof.
  induction text as [|c rest IH]; intros Hend; [discriminate|].
  destruct rest as [|d rest'].
  - simpl in Hend. simpl. rewrite Hend.
    exists EmptyString, []. split; [reflexivity | constructor].
  - assert (Hrest : JS.endsWithSpace (String d rest') = true) by exact Hend.
    destruct (IH Hrest) as (first & words & Hsplit & Hwords).
    change (JS.split_ws (String c (String d rest')))
      with (if JS.isWhiteSpace c
            then if JS.startsWithSpace (String d rest')
                 then JS.split_ws (String d rest')
                 else EmptyString :: JS.split_ws (String d rest')
            else match JS.split_ws (String d rest') with
                 | piece :: pieces => String c piece :: pieces
                 | [] => [String c EmptyString]
                 end).
    destruct (JS.isWhiteSpace c).
    + destruct (JS.startsWithSpace (String d rest')) eqn:Hd.
      * eauto.
      * destruct (split_ws_head d rest' Hd) as (piece & pieces & Hpiece).
        rewrite Hpiece in Hsplit |- *. injection Hsplit as <- Hpieces.
        exists EmptyString, (String d piece :: words).
        split; [now rewrite Hpieces | now constructor].
    + rewrite Hsplit. eauto.
Qed.

Lemma filter_nonempty_words (words : list string) :
  Forall (fun w => nonempty w = true) words -> filter nonempty words = words.
Proof.
  induction 1 as [|w ws Hw _ IH]; simpl; [reflexivity | now rewrite Hw, IH].
Qed.

(** The lines of a first piece, which may be empty, and of words. *)
Lemma breakText_loop_words (len : Z) (first : string) (words : list string) :
  (0 <= len)%Z ->
  Forall (fun w => nonempty w = true) words ->
  JS.join " " (breakText_loop len (first :: words) [] EmptyString)
  = JS.join " " (filter nonempty (first :: words)).
Proof.
  intros Hlen Hwords. destruct first as [|c first].
  - rewrite breakText_loop_cons.
    change (extend EmptyString EmptyString) with EmptyString.
    replace (len <? Z.of_nat (String.length EmptyString))%Z with false
      by (symmetry; apply Z.ltb_ge; simpl; lia).
    rewrite breakText_loop_join by assumption.
    simpl. now rewrite filter_nonempty_words.
  - rewrite breakText_loop_join by (constructor; [reflexivity | assumption]).
    simpl filter. now rewrite filter_nonempty_words.
Qed.

Lemma join_snoc (sep x y : string) (items : list string) :
  JS.join sep (items ++ [(x ++ y)%string])%list = JS.join sep (items ++ [x])%list ++ y.
Proof.
  induction items as [|a items IH]; [reflexivity|].
  simpl app. rewrite !join_cons by (destruct items; discriminate).
  now rewrite IH, !string_app_assoc.
Qed.

(** An empty last piece adds at most one space to the joined lines. *)
Lemma breakText_loop_trailing (len : Z) (words lines : list string) (line : string) :
  (0 <= len)%Z ->
  JS.join " " (breakText_loop len (words ++ [EmptyString]) lines line)
  = JS.join " " (breakText_loop len words lines line)
  \/ JS.join " " (breakText_loop len (words ++ [EmptyString]) lines line)
     = JS.join " " (breakText_loop len words lines line) ++ " ".
Proof.
  intros Hlen. revert lines line.
  induction words as [|word words IH]; intros lines line.
  - simpl app. rewrite breakText_loop_cons. destruct line as [|c line].
    + change (extend EmptyString EmptyString) with EmptyString.
      replace (len <? Z.of_nat (String.length EmptyString))%Z with false
        by (symmetry; apply Z.ltb_ge; simpl; lia).
      now left.
    + right.
      assert (Hnew : extend (String c line) EmptyString = String c line ++ " ")
        by reflexivity.
      assert (Hall : JS.join " " (lines ++ [extend (String c line) EmptyString])%list
                     = JS.join " " (breakText_loop len [] lines (String c line)) ++ " ").
      { rewrite Hnew. apply join_snoc. }
      destruct (len <? _)%Z; exact Hall.
  - simpl app. rewrite !breakText_loop_cons.
    destruct (len <? Z.of_nat (String.length (extend line word)))%Z; apply IH.
Qed.

(** X4: at a width that is not negative, the produced lines joined by single
    spaces are the white-space-normalized text, followed by one more space at
    most, and by none when the text does not end in white space: no word is
    lost, repeated or moved. *)
Theorem breakText_join_any (text : string) (len : Z) :
  (0 <= len)%Z ->
  JS.join " " (breakText text len) = normalized text
  \/ (JS.endsWithSpace text = true
      /\ JS.join " " (breakText text len) = normalized text ++ " ").
Proof.
  intros Hlen. unfold breakText, normalized.
  destruct (JS.endsWithSpace text) eqn:Hend.
  - destruct (split_ws_trailing text Hend) as (first & words & -> & Hwords).
    assert (Hfilter : filter nonempty (first :: words ++ [EmptyString])
                      = filter nonempty (first :: words)).
    { change (first :: words ++ [EmptyString])%list
        with ((first :: words) ++ [EmptyString])%list.
      rewrite filter_app. simpl (filter nonempty [EmptyString]).
      now rewrite app_nil_r. }
    rewrite Hfilter, <- (breakText_loop_words len first words Hlen Hwords).
    change (first :: words ++ [EmptyString])%list
      with ((first :: words) ++ [EmptyString])%list.
    destruct (breakText_loop_trailing len (first :: words) [] EmptyString Hlen)
      as [E | E]; rewrite E; auto.
  - destruct (split_ws_tail_nonempty text Hend) as (first & words & -> & Hwords).
    left. now apply breakText_loop_words.
Qed.

Lemma breakText_join_any_witness :
  JS.join " " (breakText " aa  bb cc " 4) = normalized " aa  bb cc "
  \/ (JS.endsWithSpace " aa  bb cc " = true
      /\ JS.join " " (breakText " aa  bb cc " 4) = normalized " aa  bb cc " ++ " ").
Proof. apply (breakText_join_any " aa  bb cc " 4). lia. Defined.

(** X5: a text that does not end in white space and whose normalized form
    fits the width is wrapped into that one line, or into no line when it has
    no word. *)
Theorem breakText_fits (text : string) (len : Z) :
  JS.endsWithSpace text = false ->
  (Z.of_nat (String.length (normalized text)) <= len)%Z ->
  breakText text len
  = if normalized text =? EmptyString then [] else [normalized text].
Proof.
  intros Hend Hfits.
  assert (Hlen : (0 <= len)%Z) by lia.
  pose proof (breakText_loop_flushed len (JS.split_ws text) EmptyString) as Hflushed.
  pose proof (breakText_loop_starts len (JS.split_ws text) EmptyString Hlen
                (split_ws_spaceless text) eq_refl) as Hstart.
  assert (Hjoin : JS.join " " (breakText text len) = normalized text).
  { unfold breakText, normalized.
    destruct (split_ws_tail_nonempty text Hend) as (first & words & -> & Hwords).
    now apply breakText_loop_words. }
  unfold breakText in *.
  destruct (breakText_loop len (JS.split_ws text) [] EmptyString) as [|l1 [|l2 rest]].
  - simpl in Hjoin. now rewrite <- Hjoin.
  - simpl in Hjoin. subst l1. inversion Hstart as [|? ? [Hne _] _]; subst.
    apply String.eqb_neq in Hne. now rewrite Hne.
  - exfalso. inversion Hflushed as [|? ? Hlong _]; subst.
    rewrite <- Hjoin, join_cons in Hfits by discriminate.
    rewrite string_length_app in Hfits. lia.
Qed.

Lemma breakText_fits_witness :
  breakText "  A  short   note" 50 = ["A short note"].
Proof.
  apply (breakText_fits "  A  short   note" 50); [reflexivity | simpl; lia].
Defined.

(** ** When the printers throw *)

Lemma mapM_throws {A B : Type} (f : A -> Outcome B) (items : list A) :
  mapM f items = Throws <-> Exists (fun item => f item = Throws) items.
Proof.
  induction items as [|item items IH]; simpl.
  - split; [discriminate | intros H; inversion H].
  - destruct (f item) as [b|] eqn:Hitem; cbn [bind].
    + destruct (mapM f items) as [bs|]; cbn [bind].
      * split; [discriminate|]. intros H.
        inversion H as [? ? Hhead | ? ? Htail]; subst; [congruence|].
        now apply IH in Htail.
      * split; [|reflexivity]. intros _. apply Exists_cons_tl. now apply IH.
    + split; [|reflexivity]. intros _. now apply Exists_cons_hd.
Qed.

Lemma Exists_equiv {A : Type} (P Q : A -> Prop) (items : list A) :
  (forall item, P item <-> Q item) -> (Exists P items <-> Exists Q items).
Proof.
  intros H. split; apply Exists_impl; intros item; apply H.
Qed.

Section Throwing.

Context {lib : GraphQLJS}.
Variable this : HTMLDocumentSchemaPlugin.

Lemma inputValue_throws (arg : GraphQLArgument) :
  inputValue this arg = Throws <-> arg_rejected arg.
Proof.
  unfold inputValue, arg_rejected.
  destruct (arg_defaultValue arg) as [v|]; cbn [isNullish bind].
  - destruct (value v (arg_type arg)) as [literal|] eqn:Hv; cbn [bind].
    + split; [discriminate|]. intros (v' & [= <-] & H). congruence.
    + split; [eauto | reflexivity].
  - split; [discriminate|]. intros (v' & H & _). discriminate.
Qed.

Lemma args_throws (argList : list GraphQLArgument) :
  args this argList = Throws <-> Exists arg_rejected argList.
Proof.
  rewrite <- (Exists_equiv _ _ argList inputValue_throws), <- mapM_throws.
  unfold args. destruct argList as [|arg argList].
  - split; discriminate.
  - destruct (mapM (inputValue this) (arg :: argList)); cbn [bind];
      split; (discriminate || reflexivity).
Qed.

Lemma deprecated_throws (deprecationReason : option string) :
  deprecated deprecationReason = Throws <-> reason_rejected deprecationReason.
Proof.
  unfold deprecated, reason_rejected.
  destruct deprecationReason as [reason|]; cbn [isNullish].
  - destruct (reason =? EmptyString) eqn:Hempty; cbn [orb].
    + apply String.eqb_eq in Hempty. split; [discriminate|].
      intros (r & [= <-] & H & _). contradiction.
    + apply String.eqb_neq in Hempty.
      destruct (reason =? DEFAULT_DEPRECATION_REASON) eqn:Hdefault.
      * apply String.eqb_eq in Hdefault. split; [discriminate|].
        intros (r & [= <-] & _ & H & _). contradiction.
      * apply String.eqb_neq in Hdefault.
        destruct (value (JSString reason) GraphQLString) as [literal|] eqn:Hv;
          cbn [bind].
        -- split; [discriminate|]. intros (r & [= <-] & _ & _ & H). congruence.
        -- split; [|reflexivity]. intros _. exists reason. auto.
  - split; [discriminate|]. intros (r & H & _). discriminate.
Qed.

Lemma field_throws (f : GraphQLField) :
  field this f = Throws <-> field_rejected f.
Proof.
  unfold field, field_rejected.
  rewrite <- args_throws, <- deprecated_throws.
  destruct (args this (field_args f)); cbn [bind].
  - destruct (deprecated (field_deprecationReason f)); cbn [bind].
    + split; [discriminate | intros [H | H]; discriminate].
    + split; auto.
  - split; auto.
Qed.

Lemma fields_throws (fieldList : list GraphQLField) :
  fields this fieldList = Throws <-> Exists field_rejected fieldList.
Proof.
  rewrite <- (Exists_equiv _ _ fieldList field_throws), <- mapM_throws.
  unfold fields. destruct (mapM (field this) fieldList); cbn [bind];
    split; (discriminate || reflexivity).
Qed.

Lemma type_throws (t : GraphQLNamedType) :
  type this (NamedType t) = Throws <-> type_rejected t.
Proof.
  destruct t as [name | name ifaces fieldList | name fieldList | name members
                | name values | name fieldList]; cbn [type type_rejected].
  - split; [discriminate | contradiction].
  - rewrite <- fields_throws. unfold object.
    destruct (fields this fieldList); cbn [bind]; split; (discriminate || reflexivity).
  - rewrite <- fields_throws. unfold interfaces.
    destruct (fields this fieldList); cbn [bind]; split; (discriminate || reflexivity).
  - split; [discriminate | contradiction].
  - rewrite <- (Exists_equiv _ _ values
                  (fun v => deprecated_throws (value_deprecationReason v))).
    unfold enum.
    match goal with |- context [mapM ?f values] =>
      rewrite <- (Exists_equiv (fun v => f v = Throws) _ values);
        [rewrite <- mapM_throws; destruct (mapM f values); cbn [bind];
           split; (discriminate || reflexivity)|]
    end.
    intros v. cbv beta.
    destruct (deprecated (value_deprecationReason v)); cbn [bind];
      split; (discriminate || reflexivity).
  - rewrite <- (Exists_equiv _ _ fieldList inputValue_throws).
    unfold inputObject.
    match goal with |- context [mapM ?f fieldList] =>
      rewrite <- (Exists_equiv (fun arg => f arg = Throws) _ fieldList);
        [rewrite <- mapM_throws; destruct (mapM f fieldList); cbn [bind];
           split; (discriminate || reflexivity)|]
    end.
    intros arg. cbv beta.
    destruct (inputValue this arg); cbn [bind];
      split; (discriminate || reflexivity).
Qed.

Lemma directive_throws (d : GraphQLDirective) :
  directive this d = Throws <-> Exists arg_rejected (directive_args d).
Proof.
  rewrite <- args_throws. unfold directive.
  destruct (args this (directive_args d)); cbn [bind];
    split; (discriminate || reflexivity).
Qed.

End Throwing.

Lemma ends_in_text_truthy (s : string) : ends_in_text s -> JS.truthy s = true.
Proof.
  intros (c & Hc & _). destruct s; [discriminate | reflexivity].
Qed.

Lemma truthy_nonempty (s : string) : JS.truthy s = true -> s <> EmptyString.
Proof. intros H ->. discriminate. Qed.

Section Outcomes.

Context {lib : GraphQLJS}.
Variable this : HTMLDocumentSchemaPlugin.

(** X6: [args] prints nothing, and no empty parentheses, exactly for an empty
    list of arguments; and it throws exactly when one of the arguments has a
    default value that [value] rejects. *)
Theorem args_edges (argList : list GraphQLArgument) :
  (args this argList = Returns EmptyString <-> argList = [])
  /\ (args this argList = Throws <-> Exists arg_rejected argList).
Proof.
  split; [|apply args_throws].
  unfold args. destruct argList as [|arg argList].
  - split; reflexivity.
  - destruct (mapM (inputValue this) (arg :: argList)); cbn [bind];
      split; discriminate.
Qed.

Lemma type_outcome (t : GraphQLNamedType) :
  type this (NamedType t) = Throws
  \/ exists text,
       type this (NamedType t) = Returns (Some text) /\ text <> EmptyString.
Proof.
  destruct (type this (NamedType t)) as [[text|]|] eqn:Htype.
  - right. exists text. split; [reflexivity|].
    apply truthy_nonempty, ends_in_text_truthy. exact (type_ends_in_text this t text Htype).
  - exfalso. exact (proj1 (type_null_iff this _) Htype t eq_refl).
  - now left.
Qed.

(** X7: a named type that holds a default value that [value] rejects, or a
    deprecation reason, neither empty nor the default one, that [value]
    rejects, is not printed: [type] throws, and so does [getSections]; the
    exception is caught nowhere and no partial text is returned. *)
Theorem type_rejected_throws (t : GraphQLNamedType) :
  type_rejected t ->
  type this (NamedType t) = Throws
  /\ getSections this (inl (NamedType t)) = Throws.
Proof.
  intros H. apply (type_throws this) in H. unfold getSections. now rewrite H.
Qed.

Lemma schema_outcome (s : GraphQLSchema) :
  schema this s = Throws
  \/ exists out, schema this s = Returns out /\ JS.truthy out = true.
Proof.
  unfold schema, filteredSchema.
  destruct (mapM (directive this) _) as [ds|]; cbn [bind]; [|now left].
  destruct (mapM (type_of_entry this) _) as [ts|]; cbn [bind]; [|now left].
  right. eexists. split; [reflexivity|].
  match goal with |- JS.truthy (?a ++ nl) = true => destruct a; reflexivity end.
Qed.

(** X8: printing the whole schema throws exactly when a directive that is
    not reserved has an argument whose default value [value] rejects, or the
    type map holds, under a name that the type filter lets through, a type
    whose printing throws; the reserved directives and the filtered types
    are never printed, so they cannot make it throw. *)
Theorem schema_throws_exactly (s : GraphQLSchema) :
  schema this s = Throws
  <-> (exists d, In d (getDirectives s)
                 /\ isSpecDirective (directive_name d) = false
                 /\ Exists arg_rejected (directive_args d))
      \/ (exists typename t, isDefinedType typename = true
                             /\ lookup (getTypeMap s) typename = Some t
                             /\ type_rejected t).
Proof.
  assert (Hd : mapM (directive this)
                 (filteredSchema_directives s (fun n => negb (isSpecDirective n)))
               = Throws
               <-> exists d, In d (getDirectives s)
                             /\ isSpecDirective (directive_name d) = false
                             /\ Exists arg_rejected (directive_args d)).
  { rewrite mapM_throws, Exists_exists. unfold filteredSchema_directives.
    split.
    - intros (d & Hin & Hd). apply filter_In in Hin as [Hin Hkeep].
      apply negb_true_iff in Hkeep. apply directive_throws in Hd. eauto.
    - intros (d & Hin & Hkeep & Hd). exists d. split.
      + apply filter_In. split; [exact Hin | now apply negb_true_iff].
      + now apply directive_throws. }
  assert (Ht : mapM (type_of_entry this) (filteredSchema_types s isDefinedType) = Throws
               <-> exists typename t, isDefinedType typename = true
                                      /\ lookup (getTypeMap s) typename = Some t
                                      /\ type_rejected t).
  { unfold filteredSchema_types, filteredSchema_typeNames.
    rewrite mapM_map, mapM_throws, Exists_exists. split.
    - intros (typename & Hin & Hthrows).
      apply (Permutation_in _ (sort_perm _)), filter_In in Hin as [_ Hdefined].
      destruct (lookup (getTypeMap s) typename) as [t|] eqn:Hlookup; [|discriminate].
      apply type_throws in Hthrows. eauto.
    - intros (typename & t & Hdefined & Hlookup & Hrejected). exists typename. split.
      + apply (Permutation_in _ (Permutation_sym (sort_perm _))), filter_In.
        split; [|exact Hdefined].
        apply lookup_In in Hlookup. now apply (in_map fst) in Hlookup.
      + rewrite Hlookup. now apply type_throws. }
  rewrite <- Hd, <- Ht. unfold schema, filteredSchema.
  destruct (mapM (directive this) _) as [ds|]; cbn [bind].
  - destruct (mapM (type_of_entry this) _) as [ts|]; cbn [bind].
    + split; [discriminate | intros [H | H]; discriminate].
    + split; auto.
  - split; auto.
Qed.

(** X9: [getSections] returns [null] exactly on a type that is not a named
    type: a named type and a schema each give a section, unless their
    printing throws, and then [getSections] throws as well. *)
Theorem getSections_null_exactly (type_or_schema : GraphQLType + GraphQLSchema) :
  (getSections this type_or_schema = Returns None
   <-> exists t, type_or_schema = inl t /\ forall named, t <> NamedType named)
  /\ (getSections this type_or_schema = Throws
      <-> match type_or_schema with
          | inl t => type this t = Throws
          | inr s => schema this s = Throws
          end).
Proof.
  unfold getSections. destruct type_or_schema as [t | s].
  - destruct t as [named | ofType | ofType].
    + destruct (type_outcome named) as [E | (text & E & Htext)]; rewrite E;
        cbn [bind].
      * split; split; try discriminate; try reflexivity.
        intros (t & [= <-] & H). now elim (H named).
      * apply String.eqb_neq in Htext. unfold JS.truthy. rewrite Htext. cbn [negb].
        split; split; try discriminate.
        intros (t & [= <-] & H). now elim (H named).
    + cbn [type bind]. split; split; try discriminate; try reflexivity.
      intros _. exists (ListType ofType). split; [reflexivity | discriminate].
    + cbn [type bind]. split; split; try discriminate; try reflexivity.
      intros _. exists (NonNullType ofType). split; [reflexivity | discriminate].
  - destruct (schema_outcome s) as [E | (out & E & Hout)]; rewrite E; cbn [bind].
    + split; split; try discriminate; try reflexivity.
      intros (t & H & _). discriminate.
    + rewrite Hout. split; split; try discriminate.
      intros (t & H & _). discriminate.
Qed.

End Outcomes.

(** ** What the filters stop *)

Lemma filter_twice {A : Type} (f : A -> bool) (items : list A) :
  filter f (filter f items) = filter f items.
Proof.
  induction items as [|item items IH]; simpl; [reflexivity|].
  destruct (f item) eqn:E; simpl; [now rewrite E, IH | exact IH].
Qed.

Section Filters.

Context {lib : GraphQLJS}.
Variable this : HTMLDocumentSchemaPlugin.

Lemma keys_filter (f : string -> bool) (typeMap : list (string * GraphQLNamedType)) :
  keys (filter (fun entry => f (fst entry)) typeMap) = filter f (keys typeMap).
Proof.
  induction typeMap as [|[key t] typeMap IH]; simpl; [reflexivity|].
  destruct (f key); simpl; now rewrite IH.
Qed.

Lemma lookup_filter (f : string -> bool) (typeMap : list (string * GraphQLNamedType))
  (typename : string) :
  f typename = true ->
  lookup (filter (fun entry => f (fst entry)) typeMap) typename = lookup typeMap typename.
Proof.
  intros Hname. induction typeMap as [|[key t] typeMap IH]; simpl; [reflexivity|].
  destruct (f key) eqn:Hkey; simpl.
  - now rewrite IH.
  - destruct (key =? typename) eqn:E; [|exact IH].
    apply String.eqb_eq in E. congruence.
Qed.

(** X10: for a schema whose literals are well formed, the blocks that
    [schema] prints between the schema definition and the types are the
    printed directives of a list that holds a directive exactly when the
    schema has it and its name is none of [skip], [include] and
    [deprecated]. *)
Theorem schema_directive_listing (s : GraphQLSchema) :
  schema_ok s ->
  exists (directives : list GraphQLDirective)
         (printedDirectives typeNames printedTypes : list string),
    schema this s
    = Returns (JS.join (nl ++ nl)
                 (schemaDefinition this s :: printedDirectives ++ printedTypes)%list
               ++ nl)
    /\ Forall2 (fun d text => directive this d = Returns text)
               directives printedDirectives
    /\ Forall2 (fun typename text =>
                  exists t, lookup (getTypeMap s) typename = Some t
                            /\ type this (NamedType t) = Returns (Some text))
               typeNames printedTypes
    /\ (forall d, In d directives
                  <-> In d (getDirectives s)
                      /\ ~ In (directive_name d) ["skip"; "include"; "deprecated"]).
Proof.
  intros Hok.
  destruct (schema_blocks this s Hok) as (ds & ts & Hschema & Hds & Hts).
  exists (filteredSchema_directives s (fun n => negb (isSpecDirective n))),
    ds, (filteredSchema_typeNames s isDefinedType), ts.
  split; [exact Hschema|]. split; [exact Hds|]. split; [exact Hts|].
  intros d. unfold filteredSchema_directives, isSpecDirective.
  rewrite filter_In, negb_true_iff, !orb_false_iff, !String.eqb_neq. simpl.
  intuition congruence.
Qed.

(** X11: the directives and the types that the filters stop have no part in
    the printed schema: the schema without them is printed, or fails to be
    printed, exactly as the whole one. *)
Theorem schema_defined_part (s : GraphQLSchema) :
  schema this (defined_part s) = schema this s.
Proof.
  unfold schema, filteredSchema.
  assert (Hd : filteredSchema_directives (defined_part s)
                 (fun n => negb (isSpecDirective n))
               = filteredSchema_directives s (fun n => negb (isSpecDirective n))).
  { unfold filteredSchema_directives, defined_part. cbn [getDirectives].
    apply (filter_twice (fun d => negb (isSpecDirective (directive_name d)))). }
  assert (Hn : filteredSchema_typeNames (defined_part s) isDefinedType
               = filteredSchema_typeNames s isDefinedType).
  { unfold filteredSchema_typeNames, defined_part. cbn [getTypeMap].
    now rewrite keys_filter, filter_twice. }
  assert (Ht : filteredSchema_types (defined_part s) isDefinedType
               = filteredSchema_types s isDefinedType).
  { unfold filteredSchema_types. rewrite Hn. apply map_ext_in.
    intros typename Hin. unfold defined_part. cbn [getTypeMap].
    apply lookup_filter.
    apply (Permutation_in _ (sort_perm _)), filter_In in Hin. apply Hin. }
  rewrite Hd, Ht. reflexivity.
Qed.

End Filters.

(** ** Descriptions *)

(** X12: a description that is absent or empty is printed as nothing, and
    only such a one; any other is printed as comment lines that end with a
    line feed, and one made of white space only as the line feed alone. *)
Theorem desc_edges (description : option string) :
  (desc description = EmptyString
   <-> description = None \/ description = Some EmptyString)
  /\ (forall text, description = Some text -> text <> EmptyString ->
                   ends_with nl (desc description)
                   /\ (spaces_only text = true -> desc description = nl)).
Proof.
  split.
  - destruct description as [[|c text]|]; simpl.
    + split; auto.
    + split.
      * intros H. apply (f_equal String.length) in H.
        rewrite string_length_app in H. simpl in H. lia.
      * intros [H | H]; discriminate.
    + split; auto.
  - intros text -> Htext. destruct text as [|c text]; [contradiction|].
    unfold desc. change (JS.truthy (String c text)) with true. cbv iota.
    split.
    + eexists. reflexivity.
    + intros Hspaces. unfold breakText.
      rewrite breakText_loop_empty_words;
        [reflexivity | lia | now apply split_ws_spaces_only].
Qed.

Lemma desc_edges_witness :
  ends_with nl (desc (Some "   "))
  /\ (spaces_only "   " = true -> desc (Some "   ") = nl).
Proof.
  apply (proj2 (desc_edges (Some "   ")) "   " eq_refl). discriminate.
Defined.

(** ** Wrapping a line again *)

Lemma nonempty_neq (word : string) : nonempty word = true <-> word <> EmptyString.
Proof.
  unfold nonempty. rewrite negb_true_iff. apply String.eqb_neq.
Qed.

Lemma glue_snoc (line word : string) (words : list string) :
  glue line (words ++ [word]) = extend (glue line words) word.
Proof. unfold glue. now rewrite fold_left_app. Qed.

Lemma glue_nonempty (line : string) (words : list string) :
  line <> EmptyString -> glue line words <> EmptyString.
Proof.
  revert line. induction words as [|word words IH]; intros line H; [exact H|].
  apply IH, extend_nonempty. now left.
Qed.

Lemma extend_space (line word : string) :
  line <> EmptyString -> extend line word = line ++ " " ++ word.
Proof. destruct line; [contradiction | reflexivity]. Qed.

Lemma glue_join (line : string) (words : list string) :
  line <> EmptyString -> glue line words = JS.join " " (line :: words).
Proof.
  revert line. induction words as [|word words IH]; intros line H; [reflexivity|].
  change (glue line (word :: words)) with (glue (extend line word) words).
  rewrite IH by (apply extend_nonempty; now left).
  rewrite extend_space by exact H.
  apply (join_merge " " line word [] words).
Qed.

Lemma glue_cut (line word : string) (words : list string) :
  line <> EmptyString -> exists q, glue line (word :: words) = line ++ " " ++ q.
Proof.
  intros H. rewrite glue_join by exact H.
  rewrite join_cons by discriminate. eauto.
Qed.

Lemma split_ws_word (word : string) :
  spaceless word = true -> JS.split_ws word = [word].
Proof.
  induction word as [|c word IH]; [reflexivity|]. simpl.
  destruct (JS.isWhiteSpace c); [discriminate|]. simpl. intros H. now rewrite IH.
Qed.

Lemma split_ws_word_space (word rest : string) :
  spaceless word = true -> JS.startsWithSpace rest = false ->
  JS.split_ws (word ++ " " ++ rest) = word :: JS.split_ws rest.
Proof.
  intros Hword Hrest. induction word as [|c word IH].
  - simpl. now rewrite Hrest.
  - simpl in Hword |- *. destruct (JS.isWhiteSpace c); [discriminate|].
    simpl in Hword. simpl in IH. now rewrite (IH Hword).
Qed.

Lemma words_ok_cons (word : string) (words : list string) :
  words_ok (word :: words) = true ->
  spaceless word = true /\ words_ok words = true
  /\ (words <> [] -> nonempty word = true).
Proof.
  destruct words as [|w ws].
  - simpl. intros H. repeat split; [exact H | congruence].
  - change (words_ok (word :: w :: ws))
      with (spaceless word && nonempty word && words_ok (w :: ws)).
    rewrite !andb_true_iff. intros [[H1 H2] H3]. auto.
Qed.

Lemma words_ok_start (words : list string) :
  words_ok words = true -> JS.startsWithSpace (JS.join " " words) = false.
Proof.
  destruct words as [|word words]; [reflexivity|]. intros H.
  apply words_ok_cons in H as (Hword & _ & Hne).
  destruct words as [|w ws].
  - now apply spaceless_start.
  - rewrite join_cons by discriminate.
    specialize (Hne ltac:(discriminate)). destruct word; [discriminate|].
    exact (spaceless_start _ Hword).
Qed.

Lemma split_ws_join (word : string) (words : list string) :
  spaceless word = true -> words_ok words = true ->
  JS.split_ws (JS.join " " (word :: words)) = word :: words.
Proof.
  revert word. induction words as [|w ws IH]; intros word Hword Hwords.
  - now apply split_ws_word.
  - rewrite join_cons by discriminate.
    rewrite split_ws_word_space; [|exact Hword | now apply words_ok_start].
    apply words_ok_cons in Hwords as (Hw & Hws & _).
    now rewrite IH.
Qed.

(** A line whose cuts fit is built without a flush before its last word. *)
Lemma breakText_loop_glue (len : Z) (words lines : list string) (line : string) :
  line <> EmptyString ->
  cuts_fit len (glue line words) ->
  breakText_loop len words lines line = (lines ++ [glue line words])%list.
Proof.
  revert lines line. induction words as [|word words IH]; intros lines line Hline Hcuts.
  - simpl. destruct line; [contradiction | reflexivity].
  - assert (Hnew : extend line word <> EmptyString)
      by (apply extend_nonempty; now left).
    rewrite breakText_loop_cons.
    change (glue line (word :: words)) with (glue (extend line word) words) in *.
    destruct words as [|w ws].
    + destruct (len <? _)%Z.
      * reflexivity.
      * simpl. destruct (extend line word); [contradiction | reflexivity].
    + destruct (glue_cut (extend line word) w ws Hnew) as [q Hq].
      pose proof (Hcuts _ _ Hq) as Hfit.
      replace (len <? Z.of_nat (String.length (extend line word)))%Z with false
        by (symmetry; now apply Z.ltb_ge).
      now apply IH.
Qed.

Lemma group_rewrap (len : Z) (line : string) :
  is_group line -> cuts_fit len line ->
  JS.join " " (JS.split_ws line) = line /\ breakText line len = [line].
Proof.
  intros (word & words & Hne & Hword & Hwords & ->) Hcuts.
  apply nonempty_neq in Hne.
  assert (Hsplit : JS.split_ws (glue word words) = word :: words).
  { rewrite glue_join by exact Hne. now apply split_ws_join. }
  split.
  - rewrite Hsplit. symmetry. now apply glue_join.
  - unfold breakText. rewrite Hsplit, breakText_loop_cons.
    change (extend EmptyString word) with word.
    destruct (len <? Z.of_nat (String.length word))%Z eqn:Hflush.
    + destruct words as [|w ws]; [reflexivity|]. exfalso.
      destruct (glue_cut word w ws Hne) as [q Hq].
      pose proof (Hcuts _ _ Hq) as Hfit. apply Z.ltb_lt in Hflush. lia.
    + now apply breakText_loop_glue.
Qed.

Lemma strict_group_extend (line word : string) :
  is_strict_group line -> nonempty word = true -> spaceless word = true ->
  is_strict_group (extend line word).
Proof.
  intros (w & ws & Hne & Hw & Hws & ->) Hword1 Hword2.
  exists w, (ws ++ [word])%list. repeat split; try assumption.
  - apply Forall_app. split; [exact Hws | now repeat constructor].
  - symmetry. apply glue_snoc.
Qed.

Lemma words_ok_snoc (words : list string) (word : string) :
  Forall (fun w => nonempty w = true /\ spaceless w = true) words ->
  spaceless word = true ->
  words_ok (words ++ [word]) = true.
Proof.
  intros Hwords Hword. induction Hwords as [|w ws [Hne Hw] _ IH]; [exact Hword|].
  simpl app. destruct (ws ++ [word])%list eqn:E.
  - now destruct ws.
  - simpl. now rewrite Hw, Hne.
Qed.

Lemma group_extend (line word : string) :
  is_strict_group line -> spaceless word = true -> is_group (extend line word).
Proof.
  intros (w & ws & Hne & Hw & Hws & ->) Hword.
  exists w, (ws ++ [word])%list. repeat split; try assumption.
  - now apply words_ok_snoc.
  - symmetry. apply glue_snoc.
Qed.

Lemma strict_group_word (word : string) :
  nonempty word = true -> spaceless word = true -> is_strict_group word.
Proof.
  intros Hne Hword. exists word, []. repeat split; try assumption. constructor.
Qed.

Lemma strict_is_group (line : string) : is_strict_group line -> is_group line.
Proof.
  intros (w & ws & Hne & Hw & Hws & ->).
  exists w, ws. repeat split; try assumption.
  clear -Hws. induction Hws as [|x xs [Hne Hx] _ IH]; [reflexivity|].
  simpl. destruct xs; [exact Hx | now rewrite Hx, Hne].
Qed.

Lemma breakText_loop_groups (len : Z) (words : list string) (line : string) :
  (0 <= len)%Z ->
  words_ok words = true ->
  line = EmptyString \/ is_strict_group line ->
  Forall is_group (breakText_loop len words [] line).
Proof.
  intros Hlen. revert line.
  induction words as [|word words IH]; intros line Hwords Hline.
  - simpl. destruct Hline as [-> | Hline]; [constructor|].
    destruct line; repeat constructor. now apply strict_is_group.
  - apply words_ok_cons in Hwords as (Hword & Hrest & Hne).
    rewrite breakText_loop_cons.
    destruct (nonempty word) eqn:Hnonempty.
    + assert (Hnew : is_strict_group (extend line word)).
      { destruct Hline as [-> | Hline].
        - now apply strict_group_word.
        - now apply strict_group_extend. }
      destruct (len <? _)%Z.
      * rewrite breakText_loop_lines.
        constructor; [now apply strict_is_group | apply IH; auto].
      * apply IH; auto.
    + assert (words = []) as ->.
      { destruct words; [reflexivity|]. specialize (Hne ltac:(discriminate)).
        discriminate. }
      destruct Hline as [-> | Hline].
      * destruct word; [|discriminate].
        change (extend EmptyString EmptyString) with EmptyString.
        replace (len <? Z.of_nat (String.length EmptyString))%Z with false
          by (symmetry; apply Z.ltb_ge; simpl; lia).
        constructor.
      * pose proof (group_extend line word Hline Hword) as Hgroup.
        assert (Hne' : extend line word <> EmptyString).
        { destruct Hline as (w & ws & Hw & _ & _ & ->). apply extend_nonempty. left.
          apply glue_nonempty. now apply nonempty_neq. }
        destruct (len <? _)%Z; simpl.
        -- repeat constructor. exact Hgroup.
        -- destruct (extend line word); [contradiction|]. repeat constructor. exact Hgroup.
Qed.

Lemma split_ws_words_ok (text : string) :
  exists first others,
    JS.split_ws text = first :: others
    /\ spaceless first = true /\ words_ok others = true.
Proof.
  pose proof (split_ws_spaceless text) as Hspaceless.
  destruct (JS.endsWithSpace text) eqn:Hend.
  - destruct (split_ws_trailing text Hend) as (first & words & Hsplit & Hwords).
    rewrite Hsplit in Hspaceless. inversion Hspaceless as [|? ? Hfirst Hothers]; subst.
    exists first, (words ++ [EmptyString])%list. repeat split; try assumption.
    apply words_ok_snoc; [|reflexivity].
    apply Forall_app in Hothers as [Hothers _].
    apply Forall_forall. intros w Hw. split.
    + exact (proj1 (Forall_forall _ _) Hwords w Hw).
    + exact (proj1 (Forall_forall _ _) Hothers w Hw).
  - destruct (split_ws_tail_nonempty text Hend) as (first & others & Hsplit & Hwords).
    rewrite Hsplit in Hspaceless. inversion Hspaceless as [|? ? Hfirst Hothers]; subst.
    exists first, others. repeat split; try assumption.
    clear -Hwords Hothers.
    induction Hwords as [|w ws Hw _ IH]; [reflexivity|].
    inversion Hothers as [|? ? Hs Hrest]; subst.
    simpl. destruct ws; [exact Hs | rewrite Hs, Hw; now apply IH].
Qed.

(** X13: at a width that is not negative, every produced line is its own
    pieces joined by single spaces, and wrapping it again at the same width
    gives that one line back: wrapping wrapped text changes nothing. *)
Theorem breakText_rewrap (text : string) (len : Z) :
  (0 <= len)%Z ->
  Forall (fun line =>
            JS.join " " (JS.split_ws line) = line /\ breakText line len = [line])
         (breakText text len).
Proof.
  intros Hlen.
  assert (Hgroups : Forall is_group (breakText text len)).
  { unfold breakText.
    destruct (split_ws_words_ok text) as (first & others & -> & Hfirst & Hothers).
    destruct first as [|c first].
    - rewrite breakText_loop_cons. change (extend EmptyString EmptyString) with EmptyString.
      replace (len <? Z.of_nat (String.length EmptyString))%Z with false
        by (symmetry; apply Z.ltb_ge; simpl; lia).
      apply breakText_loop_groups; auto.
    - apply breakText_loop_groups; auto.
      destruct others as [|w ws]; [exact Hfirst|].
      change (words_ok (String c first :: w :: ws))
        with (spaceless (String c first) && nonempty (String c first)
              && words_ok (w :: ws)).
      now rewrite Hfirst, Hothers. }
  assert (Hcuts : Forall (cuts_fit len) (breakText text len)).
  { apply (breakText_loop_cuts len); [apply split_ws_spaceless | now left |].
    intros p q Hcut. destruct p; discriminate. }
  apply Forall_forall. intros line Hin.
  apply group_rewrap.
  - exact (proj1 (Forall_forall _ _) Hgroups line Hin).
  - exact (proj1 (Forall_forall _ _) Hcuts line Hin).
Qed.

Lemma breakText_rewrap_witness :
  Forall (fun line =>
            JS.join " " (JS.split_ws line) = line /\ breakText line 4 = [line])
         (breakText "  aa   bb cc " 4).
Proof. apply (breakText_rewrap "  aa   bb cc " 4). lia. Defined.

Example sample_rejected_default :
  type sample_plugin (NamedType (GraphQLInputObjectType "Page" [sample_rejected_arg]))
  = Throws
  /\ getSections sample_plugin
       (inl (NamedType (GraphQLInputObjectType "Page" [sample_rejected_arg])))
     = Throws.
Proof. split; reflexivity. Qed.

Lemma schema_type_listing_witness :
  schema_ok sample_schema
  /\ exists printedDirectives typeNames printedTypes : list string,
       schema sample_plugin sample_schema
       = Returns (JS.join (nl ++ nl)
                    (schemaDefinition sample_plugin sample_schema
                     :: printedDirectives ++ printedTypes)%list
                  ++ nl)
       /\ Forall2 (fun typename text =>
                     exists t, lookup (getTypeMap sample_schema) typename = Some t
                               /\ type sample_plugin (NamedType t) = Returns (Some text))
                  typeNames printedTypes
       /\ In "Widget" typeNames
       /\ ~ In "String" typeNames
       /\ ~ In "__Schema" typeNames.
Proof.
  split; [exact sample_schema_ok|].
  destruct (schema_type_listing sample_plugin sample_schema sample_schema_ok)
    as (ds & names & ts & Hschema & _ & Hts & Hnames & _).
  exists ds, names, ts.
  split; [exact Hschema|]. split; [exact Hts|]. split; [|split].
  - apply Hnames. split; [simpl; auto|]. split; [reflexivity|].
    simpl. intuition discriminate.
  - intros H. apply Hnames in H as (_ & _ & H). apply H. simpl. auto.
  - intros H. apply Hnames in H as (_ & H & _). discriminate H.
Defined.

Lemma schema_directive_listing_witness :
  schema_ok sample_schema
  /\ exists (directives : list (@GraphQLDirective sample_lib))
            (printedDirectives printedTypes : list string),
       schema sample_plugin sample_schema
       = Returns (JS.join (nl ++ nl)
                    (schemaDefinition sample_plugin sample_schema
                     :: printedDirectives ++ printedTypes)%list
                  ++ nl)
       /\ Forall2 (fun d text => directive sample_plugin d = Returns text)
                  directives printedDirectives
       /\ (forall d, In d directives -> directive_name d <> "skip").
Proof.
  split; [exact sample_schema_ok|].
  destruct (schema_directive_listing sample_plugin sample_schema sample_schema_ok)
    as (directives & ds & names & ts & Hschema & Hds & _ & Hlist).
  exists directives, ds, ts.
  split; [exact Hschema|]. split; [exact Hds|].
  intros d Hd Hname. apply Hlist in Hd as [_ Hd]. apply Hd. rewrite Hname. simpl. auto.
Defined.

Lemma type_rejected_throws_witness :
  type_rejected (GraphQLInputObjectType "Page" [sample_rejected_arg])
  /\ type sample_plugin (NamedType (GraphQLInputObjectType "Page" [sample_rejected_arg]))
     = Throws
  /\ getSections sample_plugin
       (inl (NamedType (GraphQLInputObjectType "Page" [sample_rejected_arg])))
     = Throws.
Proof.
  assert (H : type_rejected (GraphQLInputObjectType "Page" [sample_rejected_arg])).
  { apply Exists_cons_hd. exists None. split; reflexivity. }
  split; [exact H|].
  exact (type_rejected_throws sample_plugin
           (GraphQLInputObjectType "Page" [sample_rejected_arg]) H).
Defined.
